(** * tinyparam: a JSON-backed parameter store

    A shallow embedding of [tinyparam.c] (tp_open, tp_close, tp_get, tp_set)
    and of the parts of libc and cJSON it calls, followed by the properties
    of the store: key resolution, read-your-writes, persistence by
    write-and-rename, lock discipline and resource release. *)

From Stdlib Require Import ZArith String Ascii List Lia DecimalString.
From stdpp Require Import base option list strings gmap.

Local Open Scope string_scope.
Local Open Scope list_scope.

(** ** C strings

    A [char *] is modelled by the characters before its terminator. *)

Module CStr.

(** [strchr(s, '.') != NULL] *)
Fixpoint has_dot (s : string) : bool :=
  match s with
  | EmptyString => false
  | String c s' => if Ascii.eqb c "." then true else has_dot s'
  end.

(** [s + strspn(s, ".")]: skip the leading delimiters. *)
Fixpoint skip_dots (s : string) : string :=
  match s with
  | EmptyString => EmptyString
  | String c s' => if Ascii.eqb c "." then skip_dots s' else s
  end.

(** From the start of a token: the token (up to the next delimiter, which
    strtok_r overwrites with the terminator) and the position after it. *)
Fixpoint span_token (s : string) : string * string :=
  match s with
  | EmptyString => (EmptyString, EmptyString)
  | String c s' =>
      if Ascii.eqb c "." then (EmptyString, s')
      else let '(t, r) := span_token s' in (String c t, r)
  end.

(** [strtok_r(s, ".", &p)] (first call) and [strtok_r(NULL, ".", &p)] (later
    calls, scanning from the saved [p]): [None] is the NULL result, and
    [Some (tok, p')] the token with the new saved position. *)
Definition strtok_r (s : string) : option (string * string) :=
  match skip_dots s with
  | EmptyString => None
  | String c s' => Some (span_token (String c s'))
  end.

(** The first [n] characters, as [snprintf] and a short [fwrite] keep them. *)
Fixpoint take (n : nat) (s : string) : string :=
  match n, s with
  | S n', String c s' => String c (take n' s')
  | _, _ => EmptyString
  end.

(** [tolower] on the C locale. *)
Definition tolower (c : ascii) : ascii :=
  let n := nat_of_ascii c in
  if (65 <=? n)%nat && (n <=? 90)%nat then ascii_of_nat (n + 32) else c.

Fixpoint lower (s : string) : string :=
  match s with
  | EmptyString => EmptyString
  | String c s' => String (tolower c) (lower s')
  end.

(** The key cut at every dot, empty pieces included. *)
Fixpoint split_dots (s : string) : list string :=
  match s with
  | EmptyString => [EmptyString]
  | String c s' =>
      if Ascii.eqb c "." then EmptyString :: split_dots s'
      else match split_dots s' with
           | [] => [String c EmptyString]
           | t :: ts => String c t :: ts
           end
  end.

Definition nonempty (s : string) : bool :=
  match s with EmptyString => false | _ => true end.

(** The non-empty pieces: what successive [strtok_r] calls deliver. *)
Definition tokens (s : string) : list string := filter nonempty (split_dots s).



End CStr.

(** ** The cJSON value tree

    tinyparam uses cJSON's item struct ([type], [valuestring], the item's
    own name [string], the [child] list) and [cJSON_GetObjectItem]. *)

Inductive cJSON_type :=
| cJSON_False | cJSON_True | cJSON_NULL | cJSON_Number
| cJSON_String | cJSON_Array | cJSON_Object | cJSON_Raw.

#[global] Instance cJSON_type_eq_dec : EqDecision cJSON_type.
Proof. solve_decision. Defined.

(** [name] is the C field [string]; [valueint] stands for the numeric
    payload ([valueint]/[valuedouble]), which tinyparam never reads. *)
#[warnings="-register-all"]
Inductive cJSON := Item {
  type : cJSON_type;
  valuestring : option string;
  valueint : Z;
  name : option string;
  child : list cJSON
}.

(** A [cJSON *] into the tree of a store: the child indices leading from
    the root to the item. *)
Definition ptr := list nat.

Fixpoint deref (j : cJSON) (p : ptr) {struct p} : option cJSON :=
  match p with
  | [] => Some j
  | i :: p' => match child j !! i with
               | Some c => deref c p'
               | None => None
               end
  end.

(** In-place update of the item that [p] points to. *)
Fixpoint update (f : cJSON -> cJSON) (j : cJSON) (p : ptr) {struct p} : cJSON :=
  match p with
  | [] => f j
  | i :: p' =>
      Item (type j) (valuestring j) (valueint j) (name j)
           (alter (fun c => update f c p') i (child j))
  end.

(** [free(cur->valuestring); cur->valuestring = v] *)
Definition with_valuestring (v : option string) (j : cJSON) : cJSON :=
  Item (type j) v (valueint j) (name j) (child j).

Definition set_valuestring (root : cJSON) (cur : ptr) (v : option string) : cJSON :=
  update (with_valuestring v) root cur.

(** cJSON's [case_insensitive_strcmp(name, item->string) == 0]; an item
    without a name (an array element) never matches. *)
Definition name_matches (key : string) (j : cJSON) : bool :=
  match name j with
  | Some n => String.eqb (CStr.lower key) (CStr.lower n)
  | None => false
  end.

(** Index of the first element satisfying [f]. *)
Fixpoint find_index {A} (f : A -> bool) (l : list A) : option nat :=
  match l with
  | [] => None
  | x :: l' => if f x then Some 0%nat else S <$> find_index f l'
  end.

(** [cJSON_GetObjectItem(object, key)]: the first child of [object] whose
    name equals [key] up to letter case. It does not look at the type of
    [object]. [None] is NULL. *)
Definition cJSON_GetObjectItem (root : cJSON) (object : ptr) (key : string) : option ptr :=
  o ← deref root object;
  i ← find_index (name_matches key) (child o);
  Some (object ++ [i]).

(** The item that [cJSON_GetObjectItem(j, key)] points at, as a value. *)
Definition child_found (j : cJSON) (key : string) : option cJSON :=
  i ← find_index (name_matches key) (child j); child j !! i.

(** [cur->type == cJSON_Object] *)
Definition is_object (root : cJSON) (cur : ptr) : bool :=
  match deref root cur with
  | Some j => bool_decide (type j = cJSON_Object)
  | None => false
  end.

(** [cur->valuestring] *)
Definition valuestring_at (root : cJSON) (cur : ptr) : option string :=
  deref root cur ≫= valuestring.

(** The tree with every [valuestring] erased: what the traversal depends on. *)
Fixpoint skeleton (j : cJSON) : cJSON :=
  match j with
  | Item t _ n s ch => Item t None n s (List.map skeleton ch)
  end.

(** ** The world outside the store: files and acquired resources *)

Inductive resource :=
| R_handle                 (* the calloc'ed tp_handle_t *)
| R_mutex                  (* an initialised pthread_mutex_t *)
| R_string (s : string)    (* a heap string: strdup, cJSON_Print *)
| R_buffer (n : nat)       (* a malloc'ed buffer of n bytes *)
| R_FILE (path : string)   (* an open FILE * on path *)
| R_cJSON.                 (* a parsed tree *)

#[global] Instance resource_eq_dec : EqDecision resource.
Proof. solve_decision. Defined.

(** [fs] maps a path to the bytes of the file there; [live] lists what has
    been acquired and not yet released, most recent first. *)
Record world := World {
  fs : gmap string string;
  live : list resource
}.

Fixpoint remove_first (r : resource) (l : list resource) : list resource :=
  match l with
  | [] => []
  | x :: l' => if decide (r = x) then l' else x :: remove_first r l'
  end.

Arguments remove_first : simpl never.

Definition acquire (r : resource) (w : world) : world :=
  World (fs w) (r :: live w).

Definition release (r : resource) (w : world) : world :=
  World (fs w) (remove_first r (live w)).

(** What the file at [path] holds after the bytes [data] went into a
    stream opened on it with mode "w". *)
Definition write_file (path data : string) (w : world) : world :=
  World (<[path := data]> (fs w)) (live w).

(** A successful [rename(old, new)]. *)
Definition rename_file (old new : string) (w : world) : world :=
  match fs w !! old with
  | Some data => World (<[new := data]> (delete old (fs w))) (live w)
  | None => w
  end.

(** ** The store handle *)

Inductive mutex := Unlocked | Locked.

Record tp_handle := Handle {
  fp : option string;        (* FILE *fp: the path it is open on, None = NULL *)
  lock : mutex;              (* pthread_mutex_t lock *)
  root : option cJSON;       (* cJSON *root *)
  filename : option string   (* char *filename *)
}.

Definition pthread_mutex_lock (h : tp_handle) : tp_handle :=
  Handle (fp h) Locked (root h) (filename h).

Definition pthread_mutex_unlock (h : tp_handle) : tp_handle :=
  Handle (fp h) Unlocked (root h) (filename h).

Definition with_root (r : cJSON) (h : tp_handle) : tp_handle :=
  Handle (fp h) (lock h) (Some r) (filename h).

Definition with_fp (f : option string) (h : tp_handle) : tp_handle :=
  Handle f (lock h) (root h) (filename h).

(** ** Outcomes

    The C functions return NULL or -1 on every failure; the exit taken is
    told apart by the message it logs with AML_LOGE. *)

Inductive tp_log :=
(* tp_open *)
| Log_file_missing | Log_nomem_handle | Log_mutex_init | Log_nomem_filename
| Log_open_failed | Log_stat_failed | Log_nomem_buffer | Log_read_failed
| Log_parse_failed
(* tp_get, tp_set *)
| Log_invalid_argument | Log_root_empty | Log_nomem_key
| Log_single_key_not_found | Log_invalid_key_format
| Log_incomplete_key_path | Log_key_not_found
| Log_nomem_result | Log_nomem_value
| Log_tmp_open_failed | Log_serialize_failed | Log_write_failed
| Log_rename_failed | Log_reopen_failed.

(** [Crash] is undefined behaviour of the C program; [OutOfFuel] is the
    model giving up on a loop, which [descend_tokens] shows never happens. *)
Inductive res (A : Type) :=
| Ret (a : A)
| Fail (l : tp_log)
| Crash
| OutOfFuel.
Arguments Ret {A} a.
Arguments Fail {A} l.
Arguments Crash {A}.
Arguments OutOfFuel {A}.

(** The error kinds of the specification, and [NoResource] for the
    allocation and mutex failures, which it does not name. *)
Inductive tp_error :=
| InvalidArgument | NotFound | ParseError | KeyNotFound | IoError | NoResource.

Definition error_kind (l : tp_log) : tp_error :=
  match l with
  | Log_file_missing => NotFound
  | Log_nomem_handle | Log_mutex_init | Log_nomem_filename
  | Log_nomem_buffer | Log_nomem_key | Log_nomem_result
  | Log_nomem_value => NoResource
  | Log_open_failed | Log_stat_failed | Log_read_failed => IoError
  | Log_parse_failed => ParseError
  | Log_invalid_argument | Log_root_empty => InvalidArgument
  | Log_single_key_not_found | Log_invalid_key_format
  | Log_incomplete_key_path | Log_key_not_found => KeyNotFound
  | Log_tmp_open_failed | Log_serialize_failed | Log_write_failed
  | Log_rename_failed | Log_reopen_failed => IoError
  end.

(** The pointers that tp_open and tp_get hand back and the [int] of tp_set. *)
Definition open_retval (r : res tp_handle) : option tp_handle :=
  match r with Ret h => Some h | _ => None end.

Definition get_retval (r : res string) : option string :=
  match r with Ret v => Some v | _ => None end.

Definition set_retval (r : res unit) : Z :=
  match r with Ret _ => 0 | _ => -1 end.

(** ** What the environment decides

    Whether each allocation and system call of one invocation succeeds. *)

Record open_env := OpenEnv {
  o_calloc : bool;       (* calloc of the handle *)
  o_mutex_init : bool;   (* pthread_mutex_init *)
  o_strdup : bool;       (* strdup(file) *)
  o_fopen : bool;        (* fopen(file, "r+") *)
  o_stat : bool;         (* stat(file, &st) *)
  o_malloc : bool;       (* malloc(size + 1) *)
  o_fread : nat          (* bytes fread can deliver *)
}.

Record get_env := GetEnv {
  g_strdup_key : bool;     (* strdup(key) *)
  g_strdup_result : bool   (* strdup(cur->valuestring) *)
}.

Record set_env := SetEnv {
  s_strdup_key : bool;     (* strdup(key) *)
  s_strdup_value : bool;   (* strdup(value) *)
  s_fopen_tmp : bool;      (* fopen(temp_file, "w") *)
  s_print : bool;          (* cJSON_Print returns a buffer *)
  s_fwrite : nat;          (* bytes fwrite can take *)
  s_flush : nat;           (* bytes of the stream that reach the file by fclose *)
  s_rename : bool;         (* rename(temp_file, filename) *)
  s_reopen : bool          (* fopen(filename, "r+") *)
}.

(** ** tinyparam.c *)

Section TinyParam.

(** The two cJSON entry points whose results tinyparam only passes on:
    [cJSON_Parse] reads the buffer as a NUL-terminated text and returns
    NULL ([None]) when it rejects it; [cJSON_Print] renders a tree. *)
Variable cJSON_Parse : string -> option cJSON.
Variable cJSON_Print : cJSON -> string.

(** The [fail:] label of tp_open: [buf] is the size of the buffer when
    one was allocated. *)
Definition open_fail (buf : option nat) (handle : tp_handle) (w : world) : world :=
  let w := match buf with Some n => release (R_buffer n) w | None => w end in
  let w := match fp handle with Some f => release (R_FILE f) w | None => w end in
  let w := match filename handle with Some f => release (R_string f) w | None => w end in
  release R_handle (release R_mutex w).

Definition tp_open (e : open_env) (file : string) (w : world) : res tp_handle * world :=
  match fs w !! file with
  | None => (Fail Log_file_missing, w)                  (* access(file, F_OK) != 0 *)
  | Some content =>
    if negb (o_calloc e) then (Fail Log_nomem_handle, w) else
    let w := acquire R_handle w in
    if negb (o_mutex_init e) then (Fail Log_mutex_init, release R_handle w) else
    let w := acquire R_mutex w in
    if negb (o_strdup e) then
      (Fail Log_nomem_filename, release R_handle (release R_mutex w)) else
    let w := acquire (R_string file) w in
    if negb (o_fopen e) then
      (Fail Log_open_failed,
       release R_handle (release (R_string file) (release R_mutex w))) else
    let w := acquire (R_FILE file) w in
    let handle := Handle (Some file) Unlocked None (Some file) in
    if negb (o_stat e) then (Fail Log_stat_failed, open_fail None handle w) else
    let size := String.length content in
    if negb (o_malloc e) then (Fail Log_nomem_buffer, open_fail None handle w) else
    let w := acquire (R_buffer (size + 1)) w in
    let n := Nat.min (o_fread e) size in
    if negb (n =? size)%nat then
      (Fail Log_read_failed, open_fail (Some (size + 1)%nat) handle w) else
    match cJSON_Parse content with
    | None => (Fail Log_parse_failed, open_fail (Some (size + 1)%nat) handle w)
    | Some r =>
        (Ret (with_root r handle), release (R_buffer (size + 1)) (acquire R_cJSON w))
    end
  end.

Definition tp_close (h : option tp_handle) (w : world) : world :=
  match h with
  | Some h =>
      let w := match fp h with Some f => release (R_FILE f) w | None => w end in
      let w := match root h with Some _ => release R_cJSON w | None => w end in
      let w := match filename h with Some f => release (R_string f) w | None => w end in
      release R_handle (release R_mutex w)
  | None => w
  end.

(** The loop shared by tp_get and tp_set,
    [while (cur && cur->type == cJSON_Object)], started with [cur] and
    the saved strtok_r position [p]. *)
Inductive walk :=
| W_incomplete                 (* strtok_r ran out: "Incomplete key path" *)
| W_done (cur : option ptr)    (* the loop condition failed with this cur *)
| W_fuel.

Fixpoint descend (fuel : nat) (r : cJSON) (cur : option ptr) (p : string) {struct fuel} : walk :=
  match cur with
  | None => W_done None
  | Some c =>
      if is_object r c then
        match CStr.strtok_r p with
        | None => W_incomplete
        | Some (tok, p') =>
            match fuel with
            | O => W_fuel
            | S fuel' => descend fuel' r (cJSON_GetObjectItem r c tok) p'
            end
        end
      else W_done (Some c)
  end.

(** Lines 160-205 of tp_get: from the key to the string it will copy. *)
Definition tp_get_lookup (r : cJSON) (key : string) : res string :=
  if negb (CStr.has_dot key) then
    match cJSON_GetObjectItem r [] key ≫= valuestring_at r with
    | Some v => Ret v
    | None => Fail Log_single_key_not_found
    end
  else
    match CStr.strtok_r key with
    | None => Fail Log_invalid_key_format
    | Some (tok, p) =>
        match descend (String.length p) r (cJSON_GetObjectItem r [] tok) p with
        | W_incomplete => Fail Log_incomplete_key_path
        | W_fuel => OutOfFuel
        | W_done cur =>
            match cur ≫= valuestring_at r with
            | Some v => Ret v
            | None => Fail Log_key_not_found
            end
        end
    end.

Definition tp_get (e : get_env) (h : option tp_handle) (key : option string) (w : world)
  : res string * option tp_handle * world :=
  match h, key with
  | Some hd, Some key =>
      match root hd with
      | None => (Fail Log_root_empty, h, w)
      | Some r =>
          if negb (g_strdup_key e) then (Fail Log_nomem_key, h, w) else
          let w := acquire (R_string key) w in                (* str *)
          let hd := pthread_mutex_lock hd in
          match tp_get_lookup r key with
          | Ret v =>
              if g_strdup_result e then
                (Ret v, Some (pthread_mutex_unlock hd),
                 release (R_string key) (acquire (R_string v) w))
              else
                (Fail Log_nomem_result, Some (pthread_mutex_unlock hd),
                 release (R_string key) w)
          | Fail l =>
              (Fail l, Some (pthread_mutex_unlock hd), release (R_string key) w)
          | Crash => (Crash, Some hd, w)
          | OutOfFuel => (OutOfFuel, Some hd, w)
          end
      end
  | _, _ => (Fail Log_invalid_argument, h, w)
  end.

(** Lines 249-295 of tp_set: from the key to the item it will overwrite. *)
Definition tp_set_locate (r : cJSON) (key : string) : res ptr :=
  if negb (CStr.has_dot key) then
    match cJSON_GetObjectItem r [] key with
    | Some cur => Ret cur
    | None => Fail Log_single_key_not_found
    end
  else
    match CStr.strtok_r key with
    | None => Fail Log_invalid_key_format
    | Some (tok, p) =>
        match descend (String.length p) r (cJSON_GetObjectItem r [] tok) p with
        | W_incomplete => Fail Log_incomplete_key_path
        | W_fuel => OutOfFuel
        | W_done None => Fail Log_key_not_found
        | W_done (Some cur) => Ret cur
        end
    end.

(** What is in the temporary file once [buf] has gone through fwrite and
    the stream through fclose: of the bytes fwrite took, those flushed. *)
Definition flushed (e : set_env) (buf : string) : string :=
  CStr.take (Nat.min (s_flush e) (Nat.min (s_fwrite e) (String.length buf))) buf.

(** [snprintf(temp_file, 256, "%s.tmp", h->filename)] *)
Definition temp_file (fname : string) : string := CStr.take 255 (fname ++ ".tmp").

Definition tp_set (e : set_env) (h : option tp_handle) (key value : option string) (w : world)
  : res unit * option tp_handle * world :=
  match h, key, value with
  | Some hd, Some key, Some value =>
    match filename hd, root hd with
    | None, _ => (Fail Log_invalid_argument, h, w)
    | Some _, None => (Fail Log_root_empty, h, w)
    | Some fname, Some r =>
      if negb (s_strdup_key e) then (Fail Log_nomem_key, h, w) else
      let w := acquire (R_string key) w in                    (* str *)
      let hd := pthread_mutex_lock hd in
      match tp_set_locate r key with
      | Fail l => (Fail l, Some (pthread_mutex_unlock hd), release (R_string key) w)
      | Crash => (Crash, Some hd, w)
      | OutOfFuel => (OutOfFuel, Some hd, w)
      | Ret cur =>
        (* free(cur->valuestring); cur->valuestring = strdup(value); *)
        if negb (s_strdup_value e) then
          (Fail Log_nomem_value,
           Some (pthread_mutex_unlock (with_root (set_valuestring r cur None) hd)),
           release (R_string key) w) else
        let r1 := set_valuestring r cur (Some value) in
        (* on the later error exits: free(cur->valuestring); cur->valuestring = NULL; *)
        let undone := pthread_mutex_unlock (with_root (set_valuestring r1 cur None) hd) in
        let tmp := temp_file fname in
        if negb (s_fopen_tmp e) then
          (Fail Log_tmp_open_failed, Some undone, release (R_string key) w) else
        let w := acquire (R_FILE tmp) (write_file tmp EmptyString w) in   (* temp_fp *)
        if negb (s_print e) then
          (Fail Log_serialize_failed, Some undone,
           release (R_string key) (release (R_FILE tmp) w)) else
        let buf := cJSON_Print r1 in
        let w := acquire (R_string buf) w in
        let len := Nat.min (s_fwrite e) (String.length buf) in   (* fwrite's count *)
        (* fclose(temp_fp), on either branch and its result unused: the stream
           is buffered, and of the bytes fwrite took the file holds those
           that were flushed *)
        let w := write_file tmp (flushed e buf) w in
        if negb (len =? String.length buf)%nat then
          (Fail Log_write_failed, Some undone,
           release (R_string key) (release (R_string buf) (release (R_FILE tmp) w))) else
        let w := release (R_string buf) (release (R_FILE tmp) w) in
        if negb (s_rename e) then
          (Fail Log_rename_failed, Some undone, release (R_string key) w) else
        let w := rename_file tmp fname w in
        match fp hd with
        | None => (Crash, Some (with_root r1 hd), w)          (* fclose(NULL) *)
        | Some f =>
            let w := release (R_FILE f) w in
            if negb (s_reopen e) then
              (Fail Log_reopen_failed, Some (with_fp None undone),
               release (R_string key) w) else
            let w := acquire (R_FILE fname) w in
            (Ret tt,
             Some (pthread_mutex_unlock (with_fp (Some fname) (with_root r1 hd))),
             release (R_string key) w)
        end
      end
    end
  | _, _, _ => (Fail Log_invalid_argument, h, w)
  end.

End TinyParam.

(** ** Get as the specification words it

    Section 4.1: split the key on the dots; every segment but the last
    names a child that is an object and is descended into; the last one
    names a child holding a string value. *)

Module Spec.

(** The child named by the segment: the name is the segment itself. *)
Definition named (seg : string) (j : cJSON) : bool :=
  match name j with
  | Some n => String.eqb seg n
  | None => false
  end.

Definition get_child (j : cJSON) (seg : string) : option cJSON :=
  i ← find_index (named seg) (child j); child j !! i.

Definition string_leaf (j : cJSON) : bool :=
  bool_decide (type j = cJSON_String) && bool_decide (is_Some (valuestring j)).

Fixpoint resolve (j : cJSON) (segs : list string) : option cJSON :=
  match segs with
  | [] => None
  | seg :: rest =>
      c ← get_child j seg;
      match rest with
      | [] => if string_leaf c then Some c else None
      | _ :: _ =>
          if bool_decide (type c = cJSON_Object) then resolve c rest else None
      end
  end.

(** Path syntax (section 6): a dot-delimited sequence of non-empty names. *)
Definition valid_key (key : string) : bool :=
  forallb CStr.nonempty (CStr.split_dots key).

Definition get (r : cJSON) (key : string) : option string :=
  resolve r (CStr.split_dots key) ≫= valuestring.

End Spec.

(** Along the path the specification follows from [j], the child that
    cJSON_GetObjectItem finds for a segment (the first one whose name
    equals it up to letter case) is the child named by the segment. *)
Fixpoint lookup_agrees (j : cJSON) (segs : list string) : bool :=
  match segs with
  | [] => true
  | seg :: rest =>
      match find_index (Spec.named seg) (child j) with
      | None => true
      | Some i =>
          bool_decide (find_index (name_matches seg) (child j) = Some i) &&
          match child j !! i with
          | Some c => lookup_agrees c rest
          | None => true
          end
      end
  end.

(** ** A reader and a printer for a fragment of JSON

    Stand-ins for cJSON_Parse and cJSON_Print on closed examples: integers
    for numbers, the single-character escapes in strings, text after the
    first value ignored, as cJSON_Parse does. *)

Module Json.

Definition is_space (c : ascii) : bool := (nat_of_ascii c <=? 32)%nat.

Definition is_digit (c : ascii) : bool :=
  (48 <=? nat_of_ascii c)%nat && (nat_of_ascii c <=? 57)%nat.

Fixpoint skip_ws (s : string) : string :=
  match s with
  | String c s' => if is_space c then skip_ws s' else s
  | EmptyString => EmptyString
  end.

Fixpoint cut_at_nul (s : string) : string :=
  match s with
  | String c s' => if Ascii.eqb c zero then EmptyString else String c (cut_at_nul s')
  | EmptyString => EmptyString
  end.

Fixpoint strip_prefix (pre s : string) : option string :=
  match pre, s with
  | EmptyString, _ => Some s
  | String a pre', String b s' => if Ascii.eqb a b then strip_prefix pre' s' else None
  | _, _ => None
  end.

(** The double quote. *)
Definition dq : ascii := ascii_of_nat 34.

Definition unescape (c : ascii) : option ascii :=
  if Ascii.eqb c dq then Some dq
  else if Ascii.eqb c "\" then Some "\"%char
  else if Ascii.eqb c "/" then Some "/"%char
  else if Ascii.eqb c "b" then Some (ascii_of_nat 8)
  else if Ascii.eqb c "f" then Some (ascii_of_nat 12)
  else if Ascii.eqb c "n" then Some (ascii_of_nat 10)
  else if Ascii.eqb c "r" then Some (ascii_of_nat 13)
  else if Ascii.eqb c "t" then Some (ascii_of_nat 9)
  else None.

(** After the opening quote: the text and what follows the closing quote. *)
Fixpoint read_string (s : string) : option (string * string) :=
  match s with
  | EmptyString => None
  | String c s' =>
      if Ascii.eqb c dq then Some (EmptyString, s')
      else if Ascii.eqb c "\" then
        match s' with
        | String e s'' =>
            match unescape e, read_string s'' with
            | Some ch, Some (t, r) => Some (String ch t, r)
            | _, _ => None
            end
        | EmptyString => None
        end
      else match read_string s' with
           | Some (t, r) => Some (String c t, r)
           | None => None
           end
  end.

Fixpoint read_digits (acc : Z) (s : string) : Z * string :=
  match s with
  | String c s' =>
      if is_digit c
      then read_digits (10 * acc + Z.of_nat (nat_of_ascii c - 48)) s'
      else (acc, s)
  | EmptyString => (acc, EmptyString)
  end.

Definition leaf (t : cJSON_type) (v : option string) (n : Z) : cJSON :=
  Item t v n None [].

Definition named (k : string) (j : cJSON) : cJSON :=
  Item (type j) (valuestring j) (valueint j) (Some k) (child j).

Fixpoint read_value (fuel : nat) (s : string) : option (cJSON * string) :=
  match fuel with
  | O => None
  | S fuel' =>
      match skip_ws s with
      | EmptyString => None
      | String c r =>
          if Ascii.eqb c dq then
            '(v, r') ← read_string r; Some (leaf cJSON_String (Some v) 0, r')
          else if Ascii.eqb c "[" then
            match skip_ws r with
            | String "]" r' => Some (Item cJSON_Array None 0 None [], r')
            | _ => '(vs, r') ← read_elements fuel' r;
                   Some (Item cJSON_Array None 0 None vs, r')
            end
          else if Ascii.eqb c "{" then
            match skip_ws r with
            | String "}" r' => Some (Item cJSON_Object None 0 None [], r')
            | _ => '(ms, r') ← read_members fuel' r;
                   Some (Item cJSON_Object None 0 None ms, r')
            end
          else if Ascii.eqb c "-" then
            match r with
            | String d _ =>
                if is_digit d
                then let '(n, r') := read_digits 0 r in Some (leaf cJSON_Number None (- n), r')
                else None
            | EmptyString => None
            end
          else if is_digit c then
            let '(n, r') := read_digits 0 (String c r) in Some (leaf cJSON_Number None n, r')
          else
            match strip_prefix "null" (String c r),
                  strip_prefix "true" (String c r),
                  strip_prefix "false" (String c r) with
            | Some r', _, _ => Some (leaf cJSON_NULL None 0, r')
            | _, Some r', _ => Some (leaf cJSON_True None 1, r')
            | _, _, Some r' => Some (leaf cJSON_False None 0, r')
            | _, _, _ => None
            end
      end
  end
with read_elements (fuel : nat) (s : string) : option (list cJSON * string) :=
  match fuel with
  | O => None
  | S fuel' =>
      '(v, r) ← read_value fuel' s;
      match skip_ws r with
      | String "," r' => '(vs, r'') ← read_elements fuel' r'; Some (v :: vs, r'')
      | String "]" r' => Some ([v], r')
      | _ => None
      end
  end
with read_members (fuel : nat) (s : string) : option (list cJSON * string) :=
  match fuel with
  | O => None
  | S fuel' =>
      match skip_ws s with
      | String c r =>
          if negb (Ascii.eqb c dq) then None else
          '(k, r1) ← read_string r;
          match skip_ws r1 with
          | String ":" r2 =>
              '(v, r3) ← read_value fuel' r2;
              match skip_ws r3 with
              | String "," r4 =>
                  '(ms, r5) ← read_members fuel' r4; Some (named k v :: ms, r5)
              | String "}" r4 => Some ([named k v], r4)
              | _ => None
              end
          | _ => None
          end
      | _ => None
      end
  end.

Definition parse (text : string) : option cJSON :=
  let s := cut_at_nul text in
  fst <$> read_value (S (String.length s)) s.

Fixpoint quote_body (s : string) : string :=
  match s with
  | EmptyString => EmptyString
  | String c s' =>
      if Ascii.eqb c dq || Ascii.eqb c "\"
      then String "\" (String c (quote_body s'))
      else String c (quote_body s')
  end.

Definition quote (s : string) : string :=
  String dq (quote_body s ++ String dq EmptyString).

(** Example texts are written with ' where JSON has the double quote. *)
Fixpoint text (s : string) : string :=
  match s with
  | EmptyString => EmptyString
  | String c s' => String (if Ascii.eqb c "'" then dq else c) (text s')
  end.

Fixpoint tabs (n : nat) : string :=
  match n with O => EmptyString | S n' => String (ascii_of_nat 9) (tabs n') end.

Definition nl : string := String (ascii_of_nat 10) EmptyString.

Fixpoint print_value (depth : nat) (j : cJSON) : string :=
  match j with
  | Item t v n _ ch =>
      match t with
      | cJSON_NULL => "null"
      | cJSON_True => "true"
      | cJSON_False => "false"
      | cJSON_Number => NilZero.string_of_int (Z.to_int n)
      | cJSON_String => quote (default EmptyString v)
      | cJSON_Raw => default EmptyString v
      | cJSON_Array =>
          "[" ++ String.concat ", " (List.map (print_value depth) ch) ++ "]"
      | cJSON_Object =>
          "{" ++ nl ++
          String.concat ("," ++ nl)
            (List.map (fun c => (tabs (S depth) ++ quote (default EmptyString (name c))
                                   ++ ":" ++ tabs 1 ++ print_value (S depth) c)%string) ch)
          ++ nl ++ tabs depth ++ "}"
      end
  end.

Definition print (j : cJSON) : string := print_value 0 j.

End Json.

(** ** Concrete stores for the examples *)

Module Example.

Definition path : string := "params.json".

Definition open_ok : open_env := OpenEnv true true true true true true 1024.
Definition get_ok : get_env := GetEnv true true.
Definition set_ok : set_env := SetEnv true true true true 1024 1024 true true.

(** A disk holding one file, and nothing acquired yet. *)
Definition disk (content : string) : world := World {[ path := content ]} [].

(** The store and the world after tp_open on that file. *)
Definition opened (content : string) : option tp_handle * world :=
  match tp_open Json.parse open_ok path (disk content) with
  | (Ret h, w) => (Some h, w)
  | (_, w) => (None, w)
  end.

(** The same, for a text known to open: the handle and its tree. *)
Definition store (content : string) : tp_handle :=
  default (Handle None Unlocked None None) (opened content).1.

Definition world_of (content : string) : world := (opened content).2.

Definition tree (content : string) : cJSON :=
  default (Item cJSON_NULL None 0 None []) (Json.parse content).

Definition flat : string := Json.text "{'a':'1'}".

(** The tree of [flat], and the same tree with other strings in the leaf. *)
Definition flat_tree (v : option string) : cJSON :=
  Item cJSON_Object None 0 None [Item cJSON_String v 0 (Some "a") []].

(** An environment in which the temporary file cannot be opened. *)
Definition set_no_tmp : set_env := SetEnv true true false true 1024 1024 true true.

(** An environment in which the file cannot be reopened after the rename. *)
Definition set_no_reopen : set_env := SetEnv true true true true 1024 1024 true false.

(** An environment in which fwrite takes every byte into the stream's
    buffer and the flush at fclose writes none of them (a full disk). *)
Definition set_no_flush : set_env := SetEnv true true true true 1024 0 true true.

(** An environment in which the flush at fclose stops after 11 bytes and
    the file cannot be reopened after the rename. *)
Definition set_short_flush_no_reopen : set_env :=
  SetEnv true true true true 1024 11 true false.

(** Two children whose names differ only in letter case. *)
Definition shadowed : string := Json.text "{'A':'1','a':'2'}".



(** The document of the end-to-end example of the specification. *)
Definition nested : string :=
  Json.text "{'system':{'audio':{'volume':'50','mute':'false'},'display':{'brightness':'75'}}}".

End Example.

(** ** Auxiliary notions for the proofs *)

(** The loop of [descend] over the tokens still to come. *)
Fixpoint descend_tokens (r : cJSON) (cur : option ptr) (toks : list string) {struct toks} : walk :=
  match cur with
  | None => W_done None
  | Some c =>
      if is_object r c then
        match toks with
        | [] => W_incomplete
        | tok :: toks' => descend_tokens r (cJSON_GetObjectItem r c tok) toks'
        end
      else W_done (Some c)
  end.

(** A store as tp_open hands it out and as a successful tp_set leaves it. *)
Definition open_store (h : tp_handle) : Prop :=
  is_Some (fp h) ∧ lock h = Unlocked ∧ is_Some (root h) ∧ is_Some (filename h).

(** Every step of tp_open before the parse succeeds on a file of [size] bytes. *)
Definition open_steps_ok (e : open_env) (size : nat) : Prop :=
  o_calloc e = true ∧ o_mutex_init e = true ∧ o_strdup e = true ∧
  o_fopen e = true ∧ o_stat e = true ∧ o_malloc e = true ∧ (size ≤ o_fread e)%nat.

(** ** Where the segments of a key lead in a tree

    Two ways a key can fail to reach an item, read segment by segment with
    the child lookup of cJSON_GetObjectItem. *)

(** Going down through object items, some segment names no child. *)
Fixpoint missing_segment (j : cJSON) (segs : list string) : bool :=
  match segs with
  | [] => false
  | seg :: rest =>
      match child_found j seg with
      | None => true
      | Some c => bool_decide (type c = cJSON_Object) && missing_segment c rest
      end
  end.

(** Every segment names a child that is an object: the key stops short of
    a leaf (or has no segment at all). *)
Fixpoint ends_on_object (j : cJSON) (segs : list string) : bool :=
  match segs with
  | [] => true
  | seg :: rest =>
      match child_found j seg with
      | None => false
      | Some c => bool_decide (type c = cJSON_Object) && ends_on_object c rest
      end
  end.

(** A path of [n] characters, for the examples on long paths. *)
Fixpoint path_of_length (n : nat) : string :=
  match n with
  | O => EmptyString
  | S n' => String "p" (path_of_length n')
  end.

(** An environment in which cJSON_Print returns NULL. *)
Definition set_no_print : set_env := SetEnv true true true false 1024 1024 true true.

(** A store whose path has 255 characters, on the tree of {"a":"1"}. *)
Definition long_path : string := path_of_length 255.

Definition long_store : tp_handle :=
  Handle (Some long_path) Unlocked (Some (Example.flat_tree (Some "1")))
         (Some long_path).

Definition long_world : world :=
  World {[ long_path := Example.flat ]}
        [R_cJSON; R_FILE long_path; R_string long_path; R_mutex; R_handle].

(** tp_set on the store opened on [content], with the stand-in printer, and
    the handle it leaves. *)
Definition set_on (e : set_env) (content key value : string)
  : res unit * option tp_handle * world :=
  tp_set Json.print e (Some (Example.store content)) (Some key) (Some value)
         (Example.world_of content).

Definition handle_after (out : res unit * option tp_handle * world) : tp_handle :=
  default (Handle None Unlocked None None) out.1.2.

(** ** strtok_r and the tokens of a key *)

Section Tokens.

Import CStr.

Lemma span_token_split s :
  ∃ ts, split_dots s = (span_token s).1 :: ts ∧
        filter nonempty ts = tokens (span_token s).2 ∧
        (String.length (span_token s).2 ≤ String.length s)%nat.
Proof.
  induction s as [|c s IH]; simpl.
  - exists []. split_and!; done.
  - destruct (Ascii.eqb c ".") eqn:Hc; simpl.
    + exists (split_dots s). split_and!; [done|done|lia].
    + destruct IH as (ts & Hs & Hf & Hl). rewrite Hs.
      destruct (span_token s) as [t p]; simpl in *.
      exists ts. split_and!; [done|done|lia].
Qed.

Lemma skip_dots_tokens s :
  tokens (skip_dots s) = tokens s ∧ (String.length (skip_dots s) ≤ String.length s)%nat.
Proof.
  induction s as [|c s [IH1 IH2]]; simpl; [split; [done|lia]|].
  destruct (Ascii.eqb c ".") eqn:Hc.
  - split; [|lia]. rewrite IH1. unfold tokens. simpl. by rewrite Hc.
  - split; [done|simpl; lia].
Qed.

Lemma skip_dots_head c s s' : skip_dots s = String c s' -> Ascii.eqb c "." = false.
Proof.
  induction s as [|d s IH]; simpl; [done|].
  destruct (Ascii.eqb d ".") eqn:Hd; [done|]. intros [= <- _]. done.
Qed.

(** A NULL from strtok_r means no token is left; otherwise it delivers the
    first token and saves a strictly shorter rest holding the others. *)
Lemma strtok_r_tokens s :
  match strtok_r s with
  | None => tokens s = []
  | Some (t, p) => tokens s = t :: tokens p ∧ (String.length p < String.length s)%nat
  end.
Proof.
  unfold strtok_r. destruct (skip_dots_tokens s) as [Ht Hl].
  destruct (skip_dots s) as [|c s'] eqn:Hs.
  - by rewrite <- Ht.
  - pose proof (skip_dots_head _ _ _ Hs) as Hc.
    destruct (span_token_split s') as (ts & Hsp & Hf & Hlen).
    rewrite <- Ht. unfold tokens at 1. simpl in *. rewrite Hc, Hsp.
    destruct (span_token s') as [t p]. simpl in *.
    split; [|lia]. rewrite filter_cons_True by done. by rewrite Hf.
Qed.

Lemma descend_tokens_None r toks : descend_tokens r None toks = W_done None.
Proof. by destruct toks. Qed.

Lemma descend_tokens_Some r c toks :
  descend_tokens r (Some c) toks =
  if is_object r c then
    match toks with
    | [] => W_incomplete
    | tok :: toks' => descend_tokens r (cJSON_GetObjectItem r c tok) toks'
    end
  else W_done (Some c).
Proof. by destruct toks. Qed.

(** [descend] never runs out of fuel when given the length of the saved
    string, and it is the walk over the remaining tokens. *)
Lemma descend_is_descend_tokens fuel r cur p :
  (String.length p ≤ fuel)%nat -> descend fuel r cur p = descend_tokens r cur (tokens p).
Proof.
  revert cur p. induction fuel as [|fuel IH]; intros cur p Hlen.
  - destruct cur as [c|]; [|by rewrite descend_tokens_None].
    rewrite descend_tokens_Some. simpl.
    pose proof (strtok_r_tokens p) as H.
    destruct (strtok_r p) as [[t q]|].
    + lia.
    + by rewrite H.
  - destruct cur as [c|]; [|by rewrite descend_tokens_None].
    rewrite descend_tokens_Some. simpl.
    pose proof (strtok_r_tokens p) as H.
    destruct (strtok_r p) as [[t q]|].
    + destruct H as [-> Hq]. by rewrite IH by lia.
    + by rewrite H.
Qed.

Lemma has_dot_false_split s : has_dot s = false -> split_dots s = [s].
Proof.
  induction s as [|c s IH]; simpl; [done|].
  destruct (Ascii.eqb c "."); [done|]. intros H. by rewrite IH.
Qed.

Lemma split_dots_length s : has_dot s = true -> (2 ≤ length (split_dots s))%nat.
Proof.
  induction s as [|c s IH]; simpl; [done|].
  destruct (Ascii.eqb c ".").
  - intros _. destruct s; simpl; [lia|]. destruct (Ascii.eqb _ _); simpl; [lia|].
    destruct (split_dots s); simpl; lia.
  - intros H. specialize (IH H). destruct (split_dots s); simpl in *; lia.
Qed.









Lemma valid_key_tokens key : Spec.valid_key key = true -> tokens key = split_dots key.
Proof.
  unfold Spec.valid_key, tokens. intros H.
  induction (split_dots key) as [|t ts IH]; [done|].
  simpl in H. apply andb_prop in H as [Ht Hts].
  rewrite filter_cons_True by (by rewrite Ht). by rewrite IH.
Qed.

End Tokens.

(** ** Pointers into the tree *)

Section Tree.

Lemma find_index_Some {A} (f : A -> bool) (l : list A) i :
  find_index f l = Some i -> ∃ x, l !! i = Some x ∧ f x = true.
Proof.
  revert i. induction l as [|y l IH]; intros i; simpl; [done|].
  destruct (f y) eqn:Hy.
  - intros [= <-]. by exists y.
  - destruct (find_index f l) as [j|]; simpl; [|done].
    intros [= <-]. by apply IH.
Qed.

Lemma find_index_map {A B} (g : A -> B) (f : B -> bool) (l : list A) :
  find_index f (List.map g l) = find_index (fun x => f (g x)) l.
Proof. induction l as [|y l IH]; simpl; [done|]. by rewrite IH. Qed.

Lemma deref_app r c p : deref r (c ++ p) = deref r c ≫= fun o => deref o p.
Proof.
  revert r. induction c as [|i c IH]; intros r; simpl; [done|].
  destruct (child r !! i); [apply IH|done].
Qed.

(** A non-NULL result of cJSON_GetObjectItem points at a child of the
    object it was asked about. *)
Lemma GetObjectItem_Some r c k q :
  cJSON_GetObjectItem r c k = Some q ->
  ∃ o i x, deref r c = Some o ∧ find_index (name_matches k) (child o) = Some i ∧
           child o !! i = Some x ∧ q = c ++ [i] ∧ deref r q = Some x.
Proof.
  unfold cJSON_GetObjectItem. intros H.
  destruct (deref r c) as [o|] eqn:Ho; simpl in H; [|done].
  destruct (find_index (name_matches k) (child o)) as [i|] eqn:Hi; simpl in H; [|done].
  injection H as <-.
  destruct (find_index_Some _ _ _ Hi) as (x & Hx & _).
  exists o, i, x. split_and!; try done.
  rewrite deref_app, Ho. simpl. by rewrite Hx.
Qed.

Lemma skeleton_fields j :
  type (skeleton j) = type j ∧ name (skeleton j) = name j ∧
  child (skeleton j) = List.map skeleton (child j).
Proof. by destruct j. Qed.

Lemma name_matches_skeleton k j : name_matches k (skeleton j) = name_matches k j.
Proof. by destruct j. Qed.

Lemma deref_skeleton j p : deref (skeleton j) p = skeleton <$> deref j p.
Proof.
  revert j. induction p as [|i p IH]; intros j; simpl; [done|].
  destruct (skeleton_fields j) as (_ & _ & ->).
  change (List.map skeleton (child j)) with (skeleton <$> child j).
  rewrite list_lookup_fmap. destruct (child j !! i); simpl; [apply IH|done].
Qed.

Lemma GetObjectItem_skeleton r c k :
  cJSON_GetObjectItem (skeleton r) c k = cJSON_GetObjectItem r c k.
Proof.
  unfold cJSON_GetObjectItem. rewrite deref_skeleton.
  destruct (deref r c) as [o|]; simpl; [|done].
  destruct (skeleton_fields o) as (_ & _ & ->). rewrite find_index_map.
  f_equal. induction (child o) as [|y l IH]; simpl; [done|].
  by rewrite name_matches_skeleton, IH.
Qed.

Lemma is_object_skeleton r c : is_object (skeleton r) c = is_object r c.
Proof.
  unfold is_object. rewrite deref_skeleton.
  destruct (deref r c) as [o|]; simpl; [|done].
  by destruct (skeleton_fields o) as (-> & _).
Qed.

Lemma descend_skeleton fuel r cur p :
  descend fuel (skeleton r) cur p = descend fuel r cur p.
Proof.
  revert cur p. induction fuel as [|fuel IH]; intros [c|] p; simpl; try done.
  - by rewrite is_object_skeleton.
  - rewrite is_object_skeleton. destruct (is_object r c); [|done].
    destruct (CStr.strtok_r p) as [[t q]|]; [|done].
    by rewrite GetObjectItem_skeleton, IH.
Qed.

(** The traversal of tp_set only reads types and names. *)
Lemma tp_set_locate_skeleton r key :
  tp_set_locate (skeleton r) key = tp_set_locate r key.
Proof.
  unfold tp_set_locate. rewrite GetObjectItem_skeleton.
  destruct (CStr.has_dot key); simpl; [|done].
  destruct (CStr.strtok_r key) as [[t q]|]; [|done].
  by rewrite GetObjectItem_skeleton, descend_skeleton.
Qed.

Lemma map_alter_absorb {A B} (g : A -> B) (f : A -> A) i (l : list A) :
  (∀ x, g (f x) = g x) -> List.map g (alter f i l) = List.map g l.
Proof.
  intros H. revert i. induction l as [|y l IH]; intros [|i]; simpl; try done.
  - by rewrite H.
  - f_equal. apply IH.
Qed.

(** Overwriting a valuestring changes no type, name or child list. *)
Lemma skeleton_set_valuestring r q v : skeleton (set_valuestring r q v) = skeleton r.
Proof.
  unfold set_valuestring. revert r.
  induction q as [|i q IH]; intros r; simpl.
  - by destruct r.
  - destruct r as [t vs n s ch]. simpl. f_equal. by apply map_alter_absorb.
Qed.

Lemma tp_set_locate_set_valuestring r q v key :
  tp_set_locate (set_valuestring r q v) key = tp_set_locate r key.
Proof.
  rewrite <- tp_set_locate_skeleton, skeleton_set_valuestring.
  apply tp_set_locate_skeleton.
Qed.

Lemma deref_update f r q j :
  deref r q = Some j -> deref (update f r q) q = Some (f j).
Proof.
  revert r. induction q as [|i q IH]; intros r; simpl.
  - by intros [= ->].
  - destruct (child r !! i) as [c|] eqn:Hc; [|done]. intros H.
    rewrite list_lookup_alter_eq, Hc. simpl. by apply IH.
Qed.

Lemma valuestring_at_set r q v :
  is_Some (deref r q) -> valuestring_at (set_valuestring r q v) q = v.
Proof.
  intros [j Hj]. unfold valuestring_at, set_valuestring.
  by rewrite (deref_update _ _ _ _ Hj).
Qed.

Lemma descend_valid fuel r cur p q :
  (∀ c, cur = Some c -> is_Some (deref r c)) ->
  descend fuel r cur p = W_done (Some q) -> is_Some (deref r q).
Proof.
  revert cur p. induction fuel as [|fuel IH]; intros [c|] p Hc; simpl; try done.
  - destruct (is_object r c).
    + by destruct (CStr.strtok_r p) as [[t p']|].
    + intros [= <-]. by apply Hc.
  - destruct (is_object r c).
    + destruct (CStr.strtok_r p) as [[t p']|]; [|done].
      apply IH. intros c' Hc'.
      apply GetObjectItem_Some in Hc' as (o & i & x & _ & _ & _ & _ & Hx). by eexists.
    + intros [= <-]. by apply Hc.
Qed.

(** The item tp_set settles on is an item of the tree. *)
Lemma tp_set_locate_valid r key q :
  tp_set_locate r key = Ret q -> is_Some (deref r q).
Proof.
  unfold tp_set_locate. destruct (CStr.has_dot key); simpl.
  - destruct (CStr.strtok_r key) as [[t p]|]; [|done].
    destruct (descend _ _ _ _) as [|[c|]|] eqn:Hd; try done.
    intros [= <-]. eapply descend_valid; [|exact Hd].
    intros c' Hc'.
    apply GetObjectItem_Some in Hc' as (o & i & x & _ & _ & _ & _ & Hx). by eexists.
  - destruct (cJSON_GetObjectItem r [] key) as [c|] eqn:Hc; [|done].
    intros [= <-].
    apply GetObjectItem_Some in Hc as (o & i & x & _ & _ & _ & _ & Hx). by eexists.
Qed.

(** tp_get reads the valuestring of the very item tp_set would overwrite. *)
Lemma tp_get_lookup_locate r key q v :
  tp_set_locate r key = Ret q -> valuestring_at r q = Some v ->
  tp_get_lookup r key = Ret v.
Proof.
  unfold tp_set_locate, tp_get_lookup. destruct (CStr.has_dot key); simpl.
  - destruct (CStr.strtok_r key) as [[t p]|]; [|done].
    destruct (descend _ _ _ _) as [|[c|]|]; try done.
    intros [= <-] Hv. simpl. by rewrite Hv.
  - destruct (cJSON_GetObjectItem r [] key) as [c|]; [|done].
    intros [= <-] Hv. simpl. by rewrite Hv.
Qed.

Lemma tp_get_lookup_after_set r key q v :
  tp_set_locate r key = Ret q ->
  tp_get_lookup (set_valuestring r q (Some v)) key = Ret v.
Proof.
  intros H. apply (tp_get_lookup_locate _ _ q).
  - by rewrite tp_set_locate_set_valuestring.
  - apply valuestring_at_set. by eapply tp_set_locate_valid.
Qed.

End Tree.

(** ** Resources and files *)

Section World.

Lemma remove_first_head r l : remove_first r (r :: l) = l.
Proof. unfold remove_first. by rewrite decide_True. Qed.

Lemma remove_first_skip r x l : r ≠ x -> remove_first r (x :: l) = x :: remove_first r l.
Proof. intros H. unfold remove_first at 1. rewrite decide_False by done. done. Qed.

Lemma remove_first_second r x l : remove_first r (x :: r :: l) = x :: l.
Proof.
  destruct (decide (r = x)) as [->|H].
  - by rewrite remove_first_head.
  - by rewrite remove_first_skip, remove_first_head.
Qed.

Lemma release_acquire r w : release r (acquire r w) = w.
Proof. destruct w. unfold release, acquire. simpl. by rewrite remove_first_head. Qed.

Lemma rename_file_lookup old new data w :
  fs w !! old = Some data -> fs (rename_file old new w) !! new = Some data.
Proof. unfold rename_file. intros ->. simpl. apply lookup_insert_eq. Qed.

Lemma rename_file_written old new data (m : gmap string string) lv :
  rename_file old new (World (<[old := data]> m) lv)
  = World (<[new := data]> (delete old (<[old := data]> m))) lv.
Proof. unfold rename_file. simpl. by rewrite lookup_insert_eq. Qed.

Lemma take_length s : CStr.take (String.length s) s = s.
Proof. induction s as [|c s IH]; simpl; [done|]. by rewrite IH. Qed.

End World.

(** Bring the world after a run of acquisitions, releases and file
    operations to its explicit form. *)
Ltac norm_live :=
  unfold release, acquire, write_file; simpl;
  rewrite ?rename_file_written; simpl;
  repeat first
    [ rewrite remove_first_head
    | rewrite remove_first_second
    | rewrite remove_first_skip by discriminate ].

(** ** The loop always returns *)

Section Totality.

Lemma descend_tokens_no_fuel r cur toks : descend_tokens r cur toks ≠ W_fuel.
Proof.
  revert cur. induction toks as [|t toks IH]; intros [c|]; simpl; try done.
  - by destruct (is_object r c).
  - destruct (is_object r c); [apply IH|done].
Qed.

Lemma descend_no_fuel r cur p : descend (String.length p) r cur p ≠ W_fuel.
Proof. rewrite descend_is_descend_tokens by lia. apply descend_tokens_no_fuel. Qed.

Lemma tp_get_lookup_total r key :
  tp_get_lookup r key ≠ OutOfFuel ∧ tp_get_lookup r key ≠ Crash.
Proof.
  unfold tp_get_lookup. destruct (CStr.has_dot key); simpl.
  - destruct (CStr.strtok_r key) as [[t p]|]; [|done].
    pose proof (descend_no_fuel r (cJSON_GetObjectItem r [] t) p).
    destruct (descend _ _ _ _) as [|cur|]; try done.
    by destruct (cur ≫= valuestring_at r).
  - by destruct (cJSON_GetObjectItem r [] key ≫= valuestring_at r).
Qed.

Lemma tp_set_locate_total r key :
  tp_set_locate r key ≠ OutOfFuel ∧ tp_set_locate r key ≠ Crash.
Proof.
  unfold tp_set_locate. destruct (CStr.has_dot key); simpl.
  - destruct (CStr.strtok_r key) as [[t p]|]; [|done].
    pose proof (descend_no_fuel r (cJSON_GetObjectItem r [] t) p).
    by destruct (descend _ _ _ _) as [|[c|]|].
  - by destruct (cJSON_GetObjectItem r [] key).
Qed.

(** tp_get always returns: a value or one of its logged failures. *)
Lemma tp_get_total e h key w :
  (tp_get e h key w).1.1 ≠ OutOfFuel ∧ (tp_get e h key w).1.1 ≠ Crash.
Proof.
  unfold tp_get.
  destruct h as [hd|], key as [key|]; simpl; try done.
  destruct (root hd) as [r|]; simpl; [|done].
  destruct (g_strdup_key e); simpl; [|done].
  destruct (tp_get_lookup_total r key).
  destruct (tp_get_lookup r key); try done.
  by destruct (g_strdup_result e).
Qed.

End Totality.

(** ** tp_open *)

Section TpOpen.

Variable cJSON_Parse : string -> option cJSON.

(** Every way tp_open can end, with the world it leaves. *)
Lemma tp_open_outcomes (e : open_env) (file : string) (w : world) :
  (∀ l w', tp_open cJSON_Parse e file w = (Fail l, w') ->
           open_retval (Fail l) = None ∧ w' = w) ∧
  (∀ h w', tp_open cJSON_Parse e file w = (Ret h, w') ->
           open_store h ∧
           w' = World (fs w)
                  (R_cJSON :: R_FILE file :: R_string file :: R_mutex :: R_handle
                   :: live w)) ∧
  (tp_open cJSON_Parse e file w).1 ≠ Crash ∧
  (tp_open cJSON_Parse e file w).1 ≠ OutOfFuel.
Proof.
  destruct w as [files lv]. unfold tp_open, open_fail, open_store. simpl.
  destruct (files !! file) as [content|]; simpl.
  2: { split_and!; try done. by intros l w' [= <- <-]. }
  destruct (o_calloc e), (o_mutex_init e), (o_strdup e), (o_fopen e),
    (o_stat e), (o_malloc e); simpl;
    try (split_and!; [intros l w' [= <- <-]; split; [done|]; by norm_live
                     |done|done|done]).
  destruct (Nat.min (o_fread e) (String.length content) =? String.length content)%nat;
    simpl.
  2: { split_and!; try done. intros l w' [= <- <-]. split; [done|]. by norm_live. }
  destruct (cJSON_Parse content) as [r|]; simpl.
  - split_and!; try done. intros h w' [= <- <-]. simpl.
    split; [by split_and!; eauto|]. by norm_live.
  - split_and!; try done. intros l w' [= <- <-]. split; [done|]. by norm_live.
Qed.


(** A store that was opened and is closed again leaves nothing behind. *)
Lemma tp_open_then_close (e : open_env) (file : string) (w : world) h w' :
  tp_open cJSON_Parse e file w = (Ret h, w') -> tp_close (Some h) w' = w.
Proof.
  destruct w as [files lv]. unfold tp_open. simpl.
  repeat case_match; try done; intros [= <- <-]; simplify_eq/=; by norm_live.
Qed.

(** C8, as amended. A file whose text cJSON_Parse rejects never yields a
    store, and when the steps before the parse succeed the failure is the
    ParseError one; a path with no file fails with NotFound. *)
Theorem tp_open_rejects_bad_input (e : open_env) (file : string) (w : world) :
  (∀ content, fs w !! file = Some content -> cJSON_Parse content = None ->
     (∃ l, tp_open cJSON_Parse e file w = (Fail l, w)) ∧
     (open_steps_ok e (String.length content) ->
      tp_open cJSON_Parse e file w = (Fail Log_parse_failed, w) ∧
      error_kind Log_parse_failed = ParseError)) ∧
  (fs w !! file = None ->
     tp_open cJSON_Parse e file w = (Fail Log_file_missing, w) ∧
     error_kind Log_file_missing = NotFound).
Proof.
  split.
  - intros content Hfile Hparse.
    destruct (tp_open_outcomes e file w) as (Hfail & Hret & _ & _).
    split.
    + destruct (tp_open cJSON_Parse e file w) as [[h|l| |] w'] eqn:Ho.
      * exfalso. revert Ho. unfold tp_open. rewrite Hfile, Hparse.
        by repeat case_match.
      * destruct (Hfail l w' eq_refl) as [_ ->]. by exists l.
      * exfalso. revert Ho. unfold tp_open. rewrite Hfile, Hparse.
        by repeat case_match.
      * exfalso. revert Ho. unfold tp_open. rewrite Hfile, Hparse.
        by repeat case_match.
    + intros (Hc & Hm & Hs & Hf & Hst & Hma & Hr). split; [|done].
      assert (tp_open cJSON_Parse e file w =
              (Fail Log_parse_failed, (tp_open cJSON_Parse e file w).2)) as Heq.
      { unfold tp_open. rewrite Hfile, Hparse, Hc, Hm, Hs, Hf, Hst, Hma. simpl.
        rewrite Nat.min_r by done. by rewrite Nat.eqb_refl. }
      destruct (Hfail _ _ Heq) as [_ Hw]. by rewrite Hw in Heq.
  - intros Hfile. unfold tp_open. by rewrite Hfile.
Qed.

End TpOpen.

(** ** tp_get *)

Section TpGet.

Lemma unlock_lock h : pthread_mutex_unlock (pthread_mutex_lock h) = pthread_mutex_unlock h.
Proof. done. Qed.

Lemma unlock_open_store h : open_store h -> pthread_mutex_unlock h = h.
Proof. destruct h as [f l r n]. intros (_ & Hl & _). simpl in Hl. by subst. Qed.

(** The pointer cJSON_GetObjectItem returns points at [child_found]. *)
Lemma child_found_GetObjectItem r c j seg x :
  deref r c = Some j -> child_found j seg = Some x ->
  ∃ q, cJSON_GetObjectItem r c seg = Some q ∧ deref r q = Some x.
Proof.
  unfold child_found, cJSON_GetObjectItem. intros Hj Hx. rewrite Hj. simpl.
  destruct (find_index (name_matches seg) (child j)) as [i|]; simpl in *; [|done].
  eexists. split; [done|]. rewrite deref_app, Hj. simpl. by rewrite Hx.
Qed.

(** Where the two lookups agree, a step of the specification's walk is a
    step of the code's. *)
Lemma lookup_agrees_step j seg rest x :
  Spec.get_child j seg = Some x -> lookup_agrees j (seg :: rest) = true ->
  child_found j seg = Some x ∧ lookup_agrees x rest = true.
Proof.
  unfold Spec.get_child, child_found. simpl.
  destruct (find_index (Spec.named seg) (child j)) as [i|]; simpl; [|done].
  intros Hx H. apply andb_prop in H as [Hi Hrest].
  apply bool_decide_eq_true in Hi. rewrite Hi. simpl. by rewrite Hx in Hrest |- *.
Qed.

Lemma resolve_descend_tokens r rest : ∀ seg c j lf,
  deref r c = Some j -> Spec.resolve j (seg :: rest) = Some lf ->
  lookup_agrees j (seg :: rest) = true ->
  ∃ q, descend_tokens r (cJSON_GetObjectItem r c seg) rest = W_done (Some q) ∧
       deref r q = Some lf ∧ Spec.string_leaf lf = true.
Proof.
  induction rest as [|seg' rest IH]; intros seg c j lf Hj Hres Hag.
  - simpl in Hres. destruct (Spec.get_child j seg) as [x|] eqn:Hx; simpl in Hres; [|done].
    destruct (Spec.string_leaf x) eqn:Hleaf; [|done]. injection Hres as <-.
    destruct (lookup_agrees_step _ _ _ _ Hx Hag) as [Hfound _].
    destruct (child_found_GetObjectItem _ _ _ _ _ Hj Hfound) as (q & -> & Hq).
    exists q. rewrite descend_tokens_Some. unfold is_object. rewrite Hq.
    pose proof Hleaf as Hleaf'.
    unfold Spec.string_leaf in Hleaf. apply andb_prop in Hleaf as [Ht _].
    apply bool_decide_eq_true in Ht. rewrite Ht. simpl. by split_and!.
  - change (Spec.resolve j (seg :: seg' :: rest)) with
      (Spec.get_child j seg ≫= fun x =>
         if bool_decide (type x = cJSON_Object)
         then Spec.resolve x (seg' :: rest) else None) in Hres.
    destruct (Spec.get_child j seg) as [x|] eqn:Hx; simpl in Hres; [|done].
    destruct (bool_decide (type x = cJSON_Object)) eqn:Hobj; [|done].
    destruct (lookup_agrees_step _ _ _ _ Hx Hag) as [Hfound Hag'].
    destruct (child_found_GetObjectItem _ _ _ _ _ Hj Hfound) as (q & -> & Hq).
    rewrite descend_tokens_Some. unfold is_object. rewrite Hq, Hobj.
    by eapply IH.
Qed.

(** On a key the specification resolves, the lookups agreeing along its
    path, the traversal of tp_set settles on that leaf, and so does the
    one of tp_get. *)
Lemma tp_set_locate_resolved r key v :
  Spec.valid_key key = true -> Spec.get r key = Some v ->
  lookup_agrees r (CStr.split_dots key) = true ->
  ∃ q, tp_set_locate r key = Ret q ∧ valuestring_at r q = Some v.
Proof.
  intros Hvalid. unfold Spec.get. intros Hget Hag.
  destruct (Spec.resolve r (CStr.split_dots key)) as [lf|] eqn:Hres; simpl in Hget; [|done].
  pose proof (valid_key_tokens _ Hvalid) as Htok.
  unfold tp_set_locate. destruct (CStr.has_dot key) eqn:Hdot; simpl.
  - pose proof (strtok_r_tokens key) as Hst.
    pose proof (split_dots_length _ Hdot) as Hlen.
    destruct (CStr.strtok_r key) as [[t p]|].
    + destruct Hst as [Hst _]. rewrite descend_is_descend_tokens by lia.
      rewrite <- Htok, Hst in Hres, Hag.
      destruct (resolve_descend_tokens r _ t [] r lf eq_refl Hres Hag)
        as (q & -> & Hq & _).
      exists q. split; [done|]. unfold valuestring_at. by rewrite Hq.
    + rewrite <- Htok, Hst in Hlen. simpl in Hlen. lia.
  - rewrite (has_dot_false_split _ Hdot) in Hres, Hag.
    destruct (resolve_descend_tokens r [] key [] r lf eq_refl Hres Hag)
      as (q & Hd & Hq & _).
    destruct (cJSON_GetObjectItem r [] key) as [c|]; [|done].
    rewrite descend_tokens_Some in Hd.
    destruct (is_object r c); [done|]. injection Hd as ->.
    exists q. split; [done|]. unfold valuestring_at. by rewrite Hq.
Qed.

Lemma tp_get_lookup_resolved r key v :
  Spec.valid_key key = true -> Spec.get r key = Some v ->
  lookup_agrees r (CStr.split_dots key) = true ->
  tp_get_lookup r key = Ret v.
Proof.
  intros Hvalid Hget Hag.
  destruct (tp_set_locate_resolved _ _ _ Hvalid Hget Hag) as (q & Hq & Hv).
  by eapply tp_get_lookup_locate.
Qed.

(** C5, as amended. On an open store, for a dotted key (non-empty
    segments) whose path leads through object items to a string leaf, or
    directly to a string leaf of the root, each segment naming its child
    exactly, and the child that cJSON_GetObjectItem finds for each segment
    (first match, letter case ignored) being that child: tp_get returns
    the string of that leaf, when its two strdup calls succeed. The store
    is exactly as before, and the only new resource is the caller's own
    copy of the returned string. *)
Theorem tp_get_returns_leaf (e : get_env) (hd : tp_handle) (r : cJSON)
    (key v : string) (w : world) :
  open_store hd -> root hd = Some r ->
  Spec.valid_key key = true -> Spec.get r key = Some v ->
  lookup_agrees r (CStr.split_dots key) = true ->
  g_strdup_key e = true -> g_strdup_result e = true ->
  tp_get e (Some hd) (Some key) w = (Ret v, Some hd, acquire (R_string v) w) ∧
  get_retval (Ret v) = Some v.
Proof.
  intros Hopen Hr Hvalid Hget Hag Hk Hres. split; [|done].
  unfold tp_get. rewrite Hr, Hk. simpl.
  rewrite (tp_get_lookup_resolved _ _ _ Hvalid Hget Hag), Hres.
  rewrite unlock_lock, (unlock_open_store _ Hopen).
  do 2 f_equal. destruct w as [files lv]. unfold release, acquire. simpl.
  by rewrite remove_first_second.
Qed.

End TpGet.

(** ** tp_set *)

Section TpSet.

Variable cJSON_Print : cJSON -> string.

Lemma full_write n buf :
  (Nat.min n (String.length buf) =? String.length buf)%nat = true ->
  CStr.take (Nat.min n (String.length buf)) buf = buf.
Proof. intros H. apply Nat.eqb_eq in H. rewrite H. apply take_length. Qed.

(** A flush that takes every byte leaves the whole buffer in the file. *)
Lemma flushed_full e buf :
  (String.length buf ≤ s_fwrite e)%nat -> (String.length buf ≤ s_flush e)%nat ->
  flushed e buf = buf.
Proof.
  intros Hw Hf. unfold flushed.
  rewrite (Nat.min_r (s_fwrite e)), Nat.min_r by lia. apply take_length.
Qed.

(** fwrite's count is the whole buffer exactly when the buffer fits. *)
Lemma fwrite_whole n buf :
  (Nat.min n (String.length buf) =? String.length buf)%nat = true <->
  (String.length buf ≤ n)%nat.
Proof. rewrite Nat.eqb_eq. lia. Qed.

(** What a tp_set that returns 0 has done: fwrite took the whole
    serialization, and the file at the store's path holds what the flush
    at fclose wrote of it. *)
Lemma tp_set_success (e : set_env) (hd : tp_handle) (key value : string)
    (w : world) (h' : option tp_handle) (w' : world) :
  tp_set cJSON_Print e (Some hd) (Some key) (Some value) w = (Ret tt, h', w') ->
  ∃ r q fname f,
    root hd = Some r ∧ filename hd = Some fname ∧ fp hd = Some f ∧
    tp_set_locate r key = Ret q ∧
    (String.length (cJSON_Print (set_valuestring r q (Some value))) ≤ s_fwrite e)%nat ∧
    h' = Some (Handle (Some fname) Unlocked
                 (Some (set_valuestring r q (Some value))) (Some fname)) ∧
    fs w' = <[fname := flushed e (cJSON_Print (set_valuestring r q (Some value)))]>
              (delete (temp_file fname)
                 (<[temp_file fname :=
                      flushed e (cJSON_Print (set_valuestring r q (Some value)))]>
                    (<[temp_file fname := EmptyString]> (fs w)))).
Proof.
  unfold tp_set. intros H.
  destruct (filename hd) as [fname|] eqn:Hname; [|done].
  destruct (root hd) as [r|] eqn:Hroot; [|done].
  destruct (s_strdup_key e); simpl in H; [|done].
  destruct (tp_set_locate r key) as [q|l| |] eqn:Hloc; try done.
  destruct (s_strdup_value e); simpl in H; [|done].
  destruct (s_fopen_tmp e); simpl in H; [|done].
  destruct (s_print e); simpl in H; [|done].
  destruct (Nat.min _ _ =? _)%nat eqn:Hlen; simpl in H; [|done].
  destruct (s_rename e); simpl in H; [|done].
  destruct (fp hd) as [f|] eqn:Hfp; [|done].
  destruct (s_reopen e); simpl in H; [|done].
  injection H as <- <-.
  exists r, q, fname, f. split_and!; try done.
  - by apply fwrite_whole.
  - unfold pthread_mutex_unlock, with_fp, with_root, pthread_mutex_lock. simpl.
    by rewrite Hname.
  - unfold rename_file. simpl. by rewrite lookup_insert_eq.
Qed.

(** On an open store, with every allocation and system call succeeding and
    fwrite taking the serialization of the new tree, tp_set on a key that
    resolves to a string leaf returns 0. *)
Lemma tp_set_succeeds_on_leaf (e : set_env) (hd : tp_handle) (r : cJSON)
    (key old value : string) (w : world) :
  open_store hd -> root hd = Some r ->
  Spec.valid_key key = true -> Spec.get r key = Some old ->
  lookup_agrees r (CStr.split_dots key) = true ->
  s_strdup_key e = true -> s_strdup_value e = true -> s_fopen_tmp e = true ->
  s_print e = true -> s_rename e = true -> s_reopen e = true ->
  (∀ q, tp_set_locate r key = Ret q ->
     (String.length (cJSON_Print (set_valuestring r q (Some value))) ≤ s_fwrite e)%nat) ->
  (tp_set cJSON_Print e (Some hd) (Some key) (Some value) w).1.1 = Ret tt.
Proof.
  intros ([f Hf] & _ & _ & [n Hn]) Hr Hvalid Hget Hag Hk Hv Ht Hp Hre Hro Hw.
  destruct (tp_set_locate_resolved _ _ _ Hvalid Hget Hag) as (q & Hq & _).
  unfold tp_set. rewrite Hn, Hr, Hk. simpl. rewrite Hq, Hv, Ht, Hp. simpl.
  rewrite Nat.min_r by (by apply Hw). rewrite Nat.eqb_refl, Hre. simpl.
  by rewrite Hf, Hro.
Qed.

(** X16. After a tp_set that returned 0, a tp_get on the same key (its
    strdup calls succeeding) returns exactly the value just set, whatever
    the item held before. The file at the store's path holds what the
    flush at fclose wrote of the serialization of the tree now in memory:
    all of it when the flush was complete. *)
Theorem tp_set_then_get (es : set_env) (eg : get_env) (hd : tp_handle)
    (key value : string) (w : world) (h' : option tp_handle) (w' : world) :
  tp_set cJSON_Print es (Some hd) (Some key) (Some value) w = (Ret tt, h', w') ->
  g_strdup_key eg = true -> g_strdup_result eg = true ->
  (tp_get eg h' (Some key) w').1.1 = Ret value ∧
  ∃ hd' r' fname,
    h' = Some hd' ∧ root hd' = Some r' ∧ filename hd' = Some fname ∧
    fs w' !! fname = Some (flushed es (cJSON_Print r')) ∧
    ((String.length (cJSON_Print r') ≤ s_flush es)%nat ->
     fs w' !! fname = Some (cJSON_Print r')).
Proof.
  intros Hset Hk Hres.
  destruct (tp_set_success _ _ _ _ _ _ _ Hset)
    as (r & q & fname & f & Hr & Hn & Hf & Hloc & Hfit & -> & Hfs).
  split.
  - unfold tp_get. simpl. rewrite Hk. simpl.
    by rewrite (tp_get_lookup_after_set _ _ _ _ Hloc), Hres.
  - eexists _, _, fname. split_and!; try done.
    + rewrite Hfs. apply lookup_insert_eq.
    + intros Hflush. rewrite Hfs, lookup_insert_eq. simpl.
      by rewrite flushed_full.
Qed.


End TpSet.

(** ** Lock discipline, failed sets and keys with empty segments *)

(** [H] says the call left through an exit that [Hl] does not list. *)
Ltac other_exit H Hl :=
  by (simplify_eq; destruct Hl as [?|[?|?]]; simplify_eq).

Section Discipline.

Variable cJSON_Print : cJSON -> string.

(** C6. On an open store, tp_get and tp_set return with the lock free on
    every path: the exits taken before the lock is acquired leave it
    untouched, and every exit after pthread_mutex_lock, the error exits
    included, goes through pthread_mutex_unlock. *)
Theorem tp_get_tp_set_release_lock (eg : get_env) (es : set_env) (hd : tp_handle)
    (key value : option string) (w : world) :
  open_store hd ->
  lock <$> (tp_get eg (Some hd) key w).1.2 = Some Unlocked ∧
  lock <$> (tp_set cJSON_Print es (Some hd) key value w).1.2 = Some Unlocked.
Proof.
  destruct hd as [f l r n]. unfold open_store. simpl.
  intros ([f' ->] & -> & [r' ->] & [n' ->]). split.
  - unfold tp_get. destruct key as [key|]; simpl; [|done].
    destruct (g_strdup_key eg); simpl; [|done].
    destruct (tp_get_lookup_total r' key).
    destruct (tp_get_lookup r' key); try done.
    by destruct (g_strdup_result eg).
  - unfold tp_set. destruct key as [key|], value as [value|]; simpl; try done.
    destruct (s_strdup_key es); simpl; [|done].
    destruct (tp_set_locate_total r' key).
    destruct (tp_set_locate r' key); try done.
    destruct (s_strdup_value es), (s_fopen_tmp es), (s_print es); simpl; try done.
    destruct (Nat.min _ _ =? _)%nat; simpl; [|done].
    by destruct (s_rename es), (s_reopen es).
Qed.

(** tp_set always returns, and on a store with an open file handle it
    returns 0 or one of its logged failures. *)
Lemma tp_set_total (e : set_env) (h : option tp_handle) (key value : option string)
    (w : world) :
  (tp_set cJSON_Print e h key value w).1.1 ≠ OutOfFuel ∧
  ((∀ hd, h = Some hd -> is_Some (fp hd)) ->
   (tp_set cJSON_Print e h key value w).1.1 ≠ Crash).
Proof.
  unfold tp_set.
  destruct h as [hd|], key as [key|], value as [value|]; simpl; try done.
  destruct (filename hd) as [fname|]; [|done].
  destruct (root hd) as [r|]; [|done].
  destruct (s_strdup_key e); simpl; [|done].
  destruct (tp_set_locate_total r key).
  destruct (tp_set_locate r key); try done.
  destruct (s_strdup_value e), (s_fopen_tmp e), (s_print e); simpl; try done.
  destruct (Nat.min _ _ =? _)%nat; simpl; [|done].
  destruct (s_rename e); simpl; [|done].
  destruct (fp hd) as [f|] eqn:Hf.
  - by destruct (s_reopen e).
  - split; [done|]. intros Hopen. destruct (Hopen hd eq_refl) as [f Hf']. congruence.
Qed.

(** What tp_set does when its traversal finds no item: it fails with a
    KeyNotFound exit and neither the tree nor any file changes. *)
Lemma tp_set_unresolved (e : set_env) (hd : tp_handle) (r : cJSON)
    (fname key value : string) (w : world) (l : tp_log) :
  root hd = Some r -> filename hd = Some fname -> s_strdup_key e = true ->
  tp_set_locate r key = Fail l ->
  tp_set cJSON_Print e (Some hd) (Some key) (Some value) w
    = (Fail l, Some (pthread_mutex_unlock hd), w) ∧
  error_kind l = KeyNotFound.
Proof.
  intros Hr Hn Hk Hloc. split.
  - unfold tp_set. rewrite Hr, Hn, Hk, Hloc. simpl.
    by rewrite unlock_lock, release_acquire.
  - unfold tp_set_locate in Hloc. by repeat case_match; simplify_eq.
Qed.

(** What tp_set does on an I/O failure before the rename: the file of the
    store is untouched as long as the temporary path is another path, and
    the item is left with a NULL valuestring. *)
Lemma tp_set_early_io_failure (e : set_env) (hd : tp_handle) (key value : string)
    (w : world) (l : tp_log) (h' : option tp_handle) (w' : world) :
  tp_set cJSON_Print e (Some hd) (Some key) (Some value) w = (Fail l, h', w') ->
  l = Log_tmp_open_failed ∨ l = Log_serialize_failed ∨ l = Log_write_failed ->
  ∃ r q fname hd' r',
    root hd = Some r ∧ filename hd = Some fname ∧ tp_set_locate r key = Ret q ∧
    h' = Some hd' ∧ root hd' = Some r' ∧ valuestring_at r' q = None ∧
    lock hd' = Unlocked ∧
    (temp_file fname ≠ fname -> fs w' !! fname = fs w !! fname).
Proof.
  unfold tp_set. intros H Hl.
  destruct (filename hd) as [fname|] eqn:Hname; [|other_exit H Hl].
  destruct (root hd) as [r|] eqn:Hroot; [|other_exit H Hl].
  destruct (s_strdup_key e); simpl in H; [|other_exit H Hl].
  destruct (tp_set_locate r key) as [q|l0| |] eqn:Hloc; try done.
  2: { unfold tp_set_locate in Hloc. injection H as -> _ _.
       repeat case_match; simplify_eq; by destruct Hl as [?|[?|?]]. }
  pose proof (tp_set_locate_valid _ _ _ Hloc) as Hq.
  assert (valuestring_at
            (set_valuestring (set_valuestring r q (Some value)) q None) q = None) as Hnull.
  { apply valuestring_at_set. destruct Hq as [j Hj].
    unfold set_valuestring. rewrite (deref_update _ _ _ _ Hj). by eexists. }
  destruct (s_strdup_value e); simpl in H; [|other_exit H Hl].
  destruct (s_fopen_tmp e); simpl in H.
  2: { injection H as <- <- <-. eexists r, q, fname, _, _. split_and!; done. }
  destruct (s_print e); simpl in H.
  2: { injection H as <- <- <-. eexists r, q, fname, _, _. split_and!; try done.
       intros Hne. simpl. by rewrite lookup_insert_ne. }
  destruct (Nat.min _ _ =? _)%nat eqn:Hlen; simpl in H.
  2: { injection H as <- <- <-. eexists r, q, fname, _, _. split_and!; try done.
       intros Hne. simpl. by rewrite !lookup_insert_ne. }
  destruct (s_rename e); simpl in H; [|other_exit H Hl].
  destruct (fp hd) as [f|] eqn:Hfp; [|done].
  destruct (s_reopen e); simpl in H; other_exit H Hl.
Qed.


Lemma tp_set_locate_tokens r key :
  CStr.has_dot key = true ->
  tp_set_locate r key =
  match CStr.tokens key with
  | [] => Fail Log_invalid_key_format
  | t :: ts =>
      match descend_tokens r (cJSON_GetObjectItem r [] t) ts with
      | W_incomplete => Fail Log_incomplete_key_path
      | W_fuel => OutOfFuel
      | W_done None => Fail Log_key_not_found
      | W_done (Some cur) => Ret cur
      end
  end.
Proof.
  intros Hdot. unfold tp_set_locate. rewrite Hdot. simpl.
  pose proof (strtok_r_tokens key) as H.
  destruct (CStr.strtok_r key) as [[t p]|].
  - destruct H as [-> _]. by rewrite descend_is_descend_tokens by lia.
  - by rewrite H.
Qed.



End Discipline.

(** ** The store on concrete files *)

Section Examples.

Import Example.

(** The end-to-end example of the specification (section 8). *)
Example end_to_end :
  let '(h, w) := opened nested in
  (tp_get get_ok h (Some "system.audio.volume") w).1.1 = Ret "50" ∧
  (tp_get get_ok h (Some "system.invalid.key") w).1.1 = Fail Log_key_not_found ∧
  (tp_set Json.print set_ok h (Some "system.invalid.key") (Some "100") w)
    = (Fail Log_key_not_found, h, w) ∧
  let '(r, h', w') := tp_set Json.print set_ok h (Some "system.audio.volume") (Some "75") w in
  r = Ret tt ∧
  (tp_get get_ok h' (Some "system.audio.volume") w').1.1 = Ret "75" ∧
  (tp_get get_ok h' (Some "system.audio.mute") w').1.1 = Ret "false" ∧
  (fs w' !! path ≫= Json.parse) = (h' ≫= root).
Proof. vm_compute. by split_and!. Qed.

(** C2. The store opened on {"a":"1"} and the key "a.b": the segment "a"
    resolves to a string leaf while "b" is still to come, so the
    specification's Get finds nothing; tp_get returns "1". *)
Theorem tp_get_ignores_trailing_segments :
  let '(h, w) := opened flat in
  (h ≫= root) = Some (flat_tree (Some "1")) ∧
  Spec.get (flat_tree (Some "1")) "a.b" = None ∧
  (tp_get get_ok h (Some "a.b") w).1.1 = Ret "1".
Proof. vm_compute. by split_and!. Qed.

(** C1. The same store and key: tp_set returns 0, overwrites the leaf "a"
    in memory and replaces the file, where the claim has it fail with
    KeyNotFound and change nothing. *)
Theorem tp_set_overwrites_intermediate_leaf :
  let '(h, w) := opened flat in
  Spec.get (flat_tree (Some "1")) "a.b" = None ∧
  let '(r, h', w') := tp_set Json.print set_ok h (Some "a.b") (Some "2") w in
  r = Ret tt ∧ set_retval r = 0%Z ∧
  (h' ≫= root) = Some (flat_tree (Some "2")) ∧
  fs w !! path = Some flat ∧
  fs w' !! path = Some (Json.print (flat_tree (Some "2"))) ∧
  fs w' !! path ≠ fs w !! path.
Proof. vm_compute. by split_and!. Qed.

(** C3. The same store, the key "a", and a temporary file that cannot be
    opened: tp_set fails with the file untouched, but the leaf is left
    with a NULL valuestring instead of the "1" it held, and a tp_get on
    the key now fails although the file still says "1". *)
Theorem tp_set_failure_clears_leaf :
  let '(h, w) := opened flat in
  let '(r, h', w') := tp_set Json.print set_no_tmp h (Some "a") (Some "2") w in
  r = Fail Log_tmp_open_failed ∧
  fs w' !! path = Some flat ∧
  (h ≫= root) = Some (flat_tree (Some "1")) ∧
  (h' ≫= root) = Some (flat_tree None) ∧
  (tp_get get_ok h' (Some "a") w').1.1 = Fail Log_single_key_not_found.
Proof. vm_compute. by split_and!. Qed.

(** C4. The same store, the key "a" and the value "2", with fwrite taking
    the whole serialization into the stream's buffer and the flush at
    fclose(temp_fp), whose result tp_set does not look at, writing none of
    it: tp_set returns 0 and a tp_get on the key returns "2", but the
    rename has put an empty file at the store's path, where the claim has
    the file hold the serialization of the tree in memory. *)
Theorem tp_set_returns_0_over_truncated_file :
  let '(h, w) := opened flat in
  let '(r, h', w') := tp_set Json.print set_no_flush h (Some "a") (Some "2") w in
  r = Ret tt ∧ set_retval r = 0%Z ∧
  (tp_get get_ok h' (Some "a") w').1.1 = Ret "2" ∧
  (h' ≫= root) = Some (flat_tree (Some "2")) ∧
  fs w !! path = Some flat ∧
  fs w' !! path = Some EmptyString ∧
  fs w' !! path ≠ (Json.print <$> (h' ≫= root)).
Proof. vm_compute. by split_and!. Qed.

(** C9. The same store, key and value, with the flush at fclose(temp_fp)
    stopping after 11 of the 13 bytes of the serialization, the rename
    succeeding and the reopen failing: tp_set reports the failed reopen,
    an I/O error, and the file at the store's path is the new
    serialization cut short, where the claim has it hold the complete
    one. The same unchecked fclose as in C4. *)
Theorem tp_set_reopen_failure_over_truncated_file :
  let '(h, w) := opened flat in
  let '(r, h', w') :=
    tp_set Json.print set_short_flush_no_reopen h (Some "a") (Some "2") w in
  r = Fail Log_reopen_failed ∧
  error_kind Log_reopen_failed = IoError ∧ set_retval r = (-1)%Z ∧
  String.length (Json.print (flat_tree (Some "2"))) = 13%nat ∧
  fs w' !! path = Some (CStr.take 11 (Json.print (flat_tree (Some "2")))) ∧
  fs w' !! path ≠ Some (Json.print (flat_tree (Some "2"))) ∧
  (fs w' !! path ≫= Json.parse) = None.
Proof. vm_compute. by split_and!. Qed.

(** C5 fails as stated: on the store opened on {"A":"1","a":"2"} the key
    "a" names the string leaf holding "2", and tp_get returns "1", the
    value of the first child whose name matches with letter case ignored. *)
Lemma tp_get_returns_shadowing_leaf :
  let '(h, w) := opened shadowed in
  (h ≫= root) = Some (tree shadowed) ∧
  Spec.valid_key "a" = true ∧
  Spec.get (tree shadowed) "a" = Some "2" ∧
  (tp_get get_ok h (Some "a") w).1.1 = Ret "1" ∧
  (tp_get get_ok h (Some "a") w).1.1 ≠ Ret "2".
Proof. vm_compute. by split_and!. Qed.

(** C8 fails as stated: a file holding the JSON array [1, 2] is opened,
    and the store has a root that is not an object. *)
Lemma tp_open_accepts_array_root :
  ∃ h w', tp_open Json.parse open_ok path (disk "[1, 2]") = (Ret h, w') ∧
          type <$> root h = Some cJSON_Array.
Proof. eexists _, _. vm_compute. by split. Qed.


End Examples.

(** ** The theorems at work on the example of the specification *)

Section Instances.

Import Example.

Lemma store_nested_open : open_store (store nested).
Proof. vm_compute. split_and!; eauto. Defined.


Lemma tp_open_rejects_bad_input_witness :
  tp_open Json.parse open_ok path (disk "invalid json content")
    = (Fail Log_parse_failed, disk "invalid json content") ∧
  tp_open Json.parse open_ok "nonexistent.json" (disk flat)
    = (Fail Log_file_missing, disk flat).
Proof.
  split.
  - apply (proj1 (tp_open_rejects_bad_input Json.parse open_ok path
                    (disk "invalid json content")) "invalid json content").
    + vm_compute. reflexivity.
    + vm_compute. reflexivity.
    + vm_compute. split_and!; try reflexivity. lia.
  - apply (proj2 (tp_open_rejects_bad_input Json.parse open_ok "nonexistent.json"
                    (disk flat))).
    vm_compute. reflexivity.
Defined.

Lemma tp_get_returns_leaf_witness :
  tp_get get_ok (Some (store nested)) (Some "system.display.brightness")
      (world_of nested)
    = (Ret "75", Some (store nested), acquire (R_string "75") (world_of nested)) ∧
  get_retval (Ret "75") = Some "75".
Proof.
  apply (tp_get_returns_leaf get_ok (store nested) (tree nested)
           "system.display.brightness" "75" (world_of nested)).
  - exact store_nested_open.
  - vm_compute. reflexivity.
  - vm_compute. reflexivity.
  - vm_compute. reflexivity.
  - vm_compute. reflexivity.
  - reflexivity.
  - reflexivity.
Defined.

Lemma tp_set_then_get_witness :
  let out := tp_set Json.print set_ok (Some (store nested))
               (Some "system.audio.volume") (Some "75") (world_of nested) in
  (tp_get get_ok out.1.2 (Some "system.audio.volume") out.2).1.1 = Ret "75" ∧
  ∃ hd' r' fname,
    out.1.2 = Some hd' ∧ root hd' = Some r' ∧ filename hd' = Some fname ∧
    fs out.2 !! fname = Some (flushed set_ok (Json.print r')) ∧
    ((String.length (Json.print r') ≤ s_flush set_ok)%nat ->
     fs out.2 !! fname = Some (Json.print r')).
Proof.
  apply (tp_set_then_get Json.print set_ok get_ok (store nested)
           "system.audio.volume" "75" (world_of nested)
           (tp_set Json.print set_ok (Some (store nested))
              (Some "system.audio.volume") (Some "75") (world_of nested)).1.2
           (tp_set Json.print set_ok (Some (store nested))
              (Some "system.audio.volume") (Some "75") (world_of nested)).2).
  - vm_compute. reflexivity.
  - reflexivity.
  - reflexivity.
Defined.



Lemma tp_get_tp_set_release_lock_witness :
  lock <$> (tp_get get_ok (Some (store nested))
              (Some "system.audio.volume") (world_of nested)).1.2 = Some Unlocked ∧
  lock <$> (tp_set Json.print set_no_tmp (Some (store nested))
              (Some "system.audio.volume") (Some "75") (world_of nested)).1.2
    = Some Unlocked.
Proof.
  apply (tp_get_tp_set_release_lock Json.print get_ok set_no_tmp (store nested)).
  exact store_nested_open.
Defined.


End Instances.

(** ** What tp_set changes in the tree *)

Section Frame.

Variable cJSON_Print : cJSON -> string.

(** Overwriting the valuestring of one item leaves the valuestring of
    every other item as it was. *)
Lemma valuestring_at_set_other r q v p :
  p ≠ q -> valuestring_at (set_valuestring r q v) p = valuestring_at r p.
Proof.
  unfold valuestring_at, set_valuestring. revert r p.
  induction q as [|i q IH]; intros r p Hne.
  - destruct p as [|k p]; [done|]. simpl. done.
  - destruct p as [|k p]; [done|]. simpl.
    destruct (decide (k = i)) as [->|Hk].
    + rewrite list_lookup_alter_eq.
      destruct (child r !! i) as [c|]; simpl; [|done].
      apply IH. congruence.
    + by rewrite list_lookup_alter_ne.
Qed.

Lemma set_valuestring_twice r q a b :
  set_valuestring (set_valuestring r q a) q b = set_valuestring r q b.
Proof.
  unfold set_valuestring. revert r.
  induction q as [|i q IH]; intros r; simpl; [done|].
  f_equal. rewrite list_alter_alter_eq. apply list_alter_ext; [|done].
  intros c _. apply IH.
Qed.

(** The lookup of tp_get in terms of the traversal of tp_set. *)
Lemma tp_get_lookup_by_locate r key :
  tp_get_lookup r key =
  match tp_set_locate r key with
  | Ret q =>
      match valuestring_at r q with
      | Some v => Ret v
      | None => Fail (if CStr.has_dot key then Log_key_not_found
                      else Log_single_key_not_found)
      end
  | Fail l => Fail l
  | Crash => Crash
  | OutOfFuel => OutOfFuel
  end.
Proof.
  unfold tp_get_lookup, tp_set_locate. destruct (CStr.has_dot key); simpl.
  - destruct (CStr.strtok_r key) as [[t p]|]; [|done].
    by destruct (descend _ _ _ _) as [|[c|]|].
  - by destruct (cJSON_GetObjectItem r [] key) as [c|].
Qed.

(** Every tree tp_set can leave behind: the tree it found, or that tree
    with another valuestring in the item the key led to. *)
Lemma tp_set_tree (e : set_env) (hd : tp_handle) (r0 : cJSON)
    (key value : option string) (w : world) out hd' w' :
  root hd = Some r0 ->
  tp_set cJSON_Print e (Some hd) key value w = (out, Some hd', w') ->
  filename hd' = filename hd ∧
  (root hd' = Some r0 ∨
   ∃ k q v, key = Some k ∧ tp_set_locate r0 k = Ret q ∧
            root hd' = Some (set_valuestring r0 q v)).
Proof.
  intros Hr. unfold tp_set.
  destruct key as [k|], value as [value|];
    try (intros [= <- <- <-]; by split; [|left]).
  destruct (filename hd) as [fname|] eqn:Hn;
    [|intros [= <- <- <-]; by split; [|left]].
  rewrite Hr. destruct (s_strdup_key e); simpl;
    [|intros [= <- <- <-]; by split; [|left]].
  destruct (tp_set_locate r0 k) as [q|l| |] eqn:Hq;
    try (intros [= <- <- <-]; simpl; by split; [|left]).
  destruct (s_strdup_value e); simpl;
    [|intros [= <- <- <-]; simpl; split; [done|right; by eexists k, q, _]].
  assert (∀ x, set_valuestring (set_valuestring r0 q (Some value)) q x
               = set_valuestring r0 q x) as Htw by (intros; apply set_valuestring_twice).
  destruct (s_fopen_tmp e); simpl;
    [|intros [= <- <- <-]; simpl; split; [done|right; eexists k, q, _; by rewrite Htw]].
  destruct (s_print e); simpl;
    [|intros [= <- <- <-]; simpl; split; [done|right; eexists k, q, _; by rewrite Htw]].
  destruct (Nat.min _ _ =? _)%nat; simpl;
    [|intros [= <- <- <-]; simpl; split; [done|right; eexists k, q, _; by rewrite Htw]].
  destruct (s_rename e); simpl;
    [|intros [= <- <- <-]; simpl; split; [done|right; eexists k, q, _; by rewrite Htw]].
  destruct (fp hd) as [f|];
    [|intros [= <- <- <-]; simpl; split; [done|right; by eexists k, q, _]].
  destruct (s_reopen e); simpl; intros [= <- <- <-]; simpl;
    (split; [done|right; eexists k, q, _; by rewrite ?Htw]).
Qed.

(** X1. Whatever its outcome, tp_set keeps the shape of the tree (types,
    names, children) and its path, and changes no valuestring other than
    that of the item the key leads to; when the key leads to no item the
    valuestrings are all as before. *)
Theorem tp_set_touches_one_item (e : set_env) (hd : tp_handle) (r0 : cJSON)
    (key : string) (value : option string) (w : world) out hd' w' :
  root hd = Some r0 ->
  tp_set cJSON_Print e (Some hd) (Some key) value w = (out, Some hd', w') ->
  ∃ r1, root hd' = Some r1 ∧ skeleton r1 = skeleton r0 ∧
        filename hd' = filename hd ∧
        ∀ p, tp_set_locate r0 key ≠ Ret p ->
             valuestring_at r1 p = valuestring_at r0 p.
Proof.
  intros Hr Hset.
  destruct (tp_set_tree _ _ _ _ _ _ _ _ _ Hr Hset)
    as [Hn [Hsame|(k & q & v & [= <-] & Hq & Hr1)]].
  - by exists r0.
  - exists (set_valuestring r0 q v). split_and!; try done.
    + apply skeleton_set_valuestring.
    + intros p Hp. apply valuestring_at_set_other. congruence.
Qed.

(** X2. After a tp_set that returned 0, tp_get on any key that does not
    lead to the item just written gives what it gave before the set: the
    same string, or the same failure. *)
Theorem tp_set_keeps_other_keys (es : set_env) (eg : get_env) (hd : tp_handle)
    (r0 : cJSON) (key value key' : string) (w : world) hd' w' :
  root hd = Some r0 ->
  tp_set cJSON_Print es (Some hd) (Some key) (Some value) w = (Ret tt, Some hd', w') ->
  tp_set_locate r0 key' ≠ tp_set_locate r0 key ->
  (tp_get eg (Some hd') (Some key') w').1.1 = (tp_get eg (Some hd) (Some key') w).1.1.
Proof.
  intros Hr Hset Hother.
  destruct (tp_set_success _ _ _ _ _ _ _ _ Hset)
    as (r & q & fname & f & Hr' & Hn & Hf & Hloc & _ & [= ->] & _).
  assert (r = r0) as -> by congruence.
  unfold tp_get. simpl. rewrite Hr.
  destruct (g_strdup_key eg); simpl; [|done].
  rewrite !tp_get_lookup_by_locate, tp_set_locate_set_valuestring.
  destruct (tp_set_locate r0 key') as [q'|l| |] eqn:Hq'; try done.
  rewrite valuestring_at_set_other by congruence.
  destruct (valuestring_at r0 q'); [|done]. by destruct (g_strdup_result eg).
Qed.


End Frame.

(** ** Resources and the file across tp_get and tp_set *)

Section Effects.

Variable cJSON_Print : cJSON -> string.



Lemma take_app s t : CStr.take (String.length s) (s ++ t)%string = s.
Proof. induction s as [|c s IH]; simpl; [by destruct t|]. by rewrite IH. Qed.


(** A path of exactly 255 characters fills the buffer: the temporary path
    is the path itself. *)
Lemma temp_file_255 fname : String.length fname = 255%nat -> temp_file fname = fname.
Proof. intros H. unfold temp_file. rewrite <- H. apply take_app. Qed.

(** X4. tp_get reads only: on an open store, whatever the key and the
    outcome, the store and the files are as before; a failure leaves no
    allocation behind, a success exactly the string handed to the caller. *)
Theorem tp_get_reads_only (e : get_env) (hd : tp_handle) (key : option string)
    (w : world) out h' w' :
  open_store hd ->
  tp_get e (Some hd) key w = (out, h', w') ->
  h' = Some hd ∧ fs w' = fs w ∧
  live w' = match out with Ret v => R_string v :: live w | _ => live w end.
Proof.
  intros Hopen. pose proof (unlock_open_store _ Hopen) as Hu.
  destruct Hopen as (_ & _ & [r Hr] & _). destruct w as [files lv].
  unfold tp_get. destruct key as [key|]; [|by intros [= <- <- <-]].
  rewrite Hr. destruct (g_strdup_key e); simpl; [|by intros [= <- <- <-]].
  destruct (tp_get_lookup_total r key).
  destruct (tp_get_lookup r key) as [v|l| |]; try done.
  - destruct (g_strdup_result e); intros [= <- <- <-];
      rewrite unlock_lock, Hu; by norm_live.
  - intros [= <- <- <-]. rewrite unlock_lock, Hu. by norm_live.
Qed.

(** The handle and the resources after tp_set on an open store, exit by
    exit. *)
Lemma tp_set_effects (e : set_env) (hd : tp_handle) (key value : option string)
    (w : world) out h' w' :
  open_store hd ->
  tp_set cJSON_Print e (Some hd) key value w = (out, h', w') ->
  ∃ f fname hd',
    fp hd = Some f ∧ filename hd = Some fname ∧ h' = Some hd' ∧
    filename hd' = Some fname ∧ is_Some (root hd') ∧ lock hd' = Unlocked ∧
    match out with
    | Ret _ =>
        live w' = R_FILE fname :: remove_first (R_FILE f) (live w) ∧
        fp hd' = Some fname
    | Fail Log_reopen_failed =>
        live w' = remove_first (R_FILE f) (live w) ∧ fp hd' = None
    | Fail _ => live w' = live w ∧ fp hd' = Some f
    | _ => False
    end.
Proof.
  destruct hd as [f0 l0 r0 n0]. unfold open_store. simpl.
  intros ([f ->] & -> & [r ->] & [fname ->]) Hset. exists f, fname.
  destruct w as [files lv]. revert Hset. unfold tp_set.
  destruct key as [key|], value as [value|];
    try (intros [= <- <- <-]; eexists; by split_and!; eauto).
  simpl. destruct (s_strdup_key e); simpl;
    [|intros [= <- <- <-]; eexists; by split_and!; eauto].
  destruct (tp_set_locate_total r key).
  destruct (tp_set_locate r key) as [q|l| |] eqn:Hq; try done.
  2: { intros [= <- <- <-]. unfold tp_set_locate in Hq.
       eexists. repeat case_match; simplify_eq; split_and!; eauto; by norm_live. }
  destruct (s_strdup_value e); simpl;
    [|intros [= <- <- <-]; eexists; split_and!; eauto; by norm_live].
  destruct (s_fopen_tmp e); simpl;
    [|intros [= <- <- <-]; eexists; split_and!; eauto; by norm_live].
  destruct (s_print e); simpl;
    [|intros [= <- <- <-]; eexists; split_and!; eauto; by norm_live].
  destruct (Nat.min _ _ =? _)%nat; simpl;
    [|intros [= <- <- <-]; eexists; split_and!; eauto; by norm_live].
  destruct (s_rename e); simpl;
    [|intros [= <- <- <-]; eexists; split_and!; eauto; by norm_live].
  destruct (s_reopen e); simpl; intros [= <- <- <-];
    eexists; split_and!; eauto; by norm_live.
Qed.

(** X5. tp_set balances its resources on every exit: the key copy, the
    serialization buffer and the temporary stream are always released.
    After a return of 0 the store's file handle has been replaced by a new
    one on the store's path; after a failed reopen the old one is closed
    and [fp] is NULL; on every other exit nothing has changed. *)
Theorem tp_set_resources (e : set_env) (hd : tp_handle) (key value : option string)
    (w : world) out h' w' :
  open_store hd ->
  tp_set cJSON_Print e (Some hd) key value w = (out, h', w') ->
  ∃ f fname, fp hd = Some f ∧ filename hd = Some fname ∧
    match out with
    | Ret _ =>
        live w' = R_FILE fname :: remove_first (R_FILE f) (live w) ∧
        fp <$> h' = Some (Some fname)
    | Fail Log_reopen_failed =>
        live w' = remove_first (R_FILE f) (live w) ∧ fp <$> h' = Some None
    | _ => live w' = live w ∧ fp <$> h' = Some (Some f)
    end.
Proof.
  intros Hopen Hset.
  destruct (tp_set_effects _ _ _ _ _ _ _ _ Hopen Hset)
    as (f & fname & hd' & Hf & Hn & -> & _ & _ & _ & Hout).
  exists f, fname. split; [done|]. split; [done|].
  destruct out as [[]|l| |]; try done; simpl.
  - destruct Hout as [-> ->]. done.
  - destruct l; destruct Hout as [-> ->]; done.
Qed.

(** X12. Every exit of tp_set but the failed reopen leaves the store
    open: file handle, free lock, tree and path are all in place, so the
    next call finds a usable store. After the failed reopen [fp] is NULL. *)
Theorem tp_set_keeps_store_open (e : set_env) (hd : tp_handle)
    (key value : option string) (w : world) out h' w' :
  open_store hd ->
  tp_set cJSON_Print e (Some hd) key value w = (out, h', w') ->
  ∃ hd', h' = Some hd' ∧
         (out ≠ Fail Log_reopen_failed -> open_store hd') ∧
         (out = Fail Log_reopen_failed -> fp hd' = None).
Proof.
  intros Hopen Hset.
  destruct (tp_set_effects _ _ _ _ _ _ _ _ Hopen Hset)
    as (f & fname & hd' & Hf & Hn & -> & Hn' & Hr' & Hl' & Hout).
  exists hd'. split; [done|]. split.
  - intros Hne. unfold open_store. rewrite Hn', Hl'.
    split_and!; eauto.
    destruct out as [[]|l| |]; try done.
    + destruct Hout as [_ ->]. eauto.
    + destruct l; try done; destruct Hout as [_ ->]; eauto.
  - intros ->. by destruct Hout.
Qed.


(** X7. The buffer of the temporary path has 256 bytes. For a store
    whose path has exactly 255 characters the temporary path is the path
    itself, so opening the temporary file truncates the store's file: a
    tp_set whose serialization then fails leaves that file empty. *)
Theorem tp_set_long_path_truncates (e : set_env) (hd : tp_handle) (r : cJSON)
    (fname key value : string) (q : ptr) (w : world) :
  String.length fname = 255%nat ->
  filename hd = Some fname -> root hd = Some r -> tp_set_locate r key = Ret q ->
  s_strdup_key e = true -> s_strdup_value e = true ->
  s_fopen_tmp e = true -> s_print e = false ->
  temp_file fname = fname ∧
  (tp_set cJSON_Print e (Some hd) (Some key) (Some value) w).1.1
    = Fail Log_serialize_failed ∧
  fs (tp_set cJSON_Print e (Some hd) (Some key) (Some value) w).2 !! fname
    = Some EmptyString.
Proof.
  intros Hlen Hn Hr Hq Hk Hv Ht Hp.
  pose proof (temp_file_255 _ Hlen) as Htmp. split; [done|].
  unfold tp_set. rewrite Hn, Hr, Hk. simpl. rewrite Hq, Hv, Ht, Hp. simpl.
  split; [done|]. rewrite Htmp. apply lookup_insert_eq.
Qed.

End Effects.

(** ** Keys that lead to no item, and letter case *)

Section Keys.

Variable cJSON_Print : cJSON -> string.

Lemma child_found_None r c j seg :
  deref r c = Some j -> child_found j seg = None ->
  cJSON_GetObjectItem r c seg = None.
Proof.
  unfold child_found, cJSON_GetObjectItem. intros -> H. simpl.
  destruct (find_index (name_matches seg) (child j)) as [i|] eqn:Hi; [|done].
  destruct (find_index_Some _ _ _ Hi) as (x & Hx & _). simpl in H. congruence.
Qed.

Lemma descend_tokens_missing r ts : ∀ t c j,
  deref r c = Some j -> missing_segment j (t :: ts) = true ->
  descend_tokens r (cJSON_GetObjectItem r c t) ts = W_done None.
Proof.
  induction ts as [|t' ts IH]; intros t c j Hj H;
    change (missing_segment j (t :: ?l)) with
      (match child_found j t with
       | None => true
       | Some x => bool_decide (type x = cJSON_Object) && missing_segment x l
       end) in H;
    destruct (child_found j t) as [x|] eqn:Hx;
    try (rewrite (child_found_None _ _ _ _ Hj Hx); apply descend_tokens_None).
  - simpl in H. by rewrite andb_false_r in H.
  - apply andb_prop in H as [Hobj Hmiss].
    destruct (child_found_GetObjectItem _ _ _ _ _ Hj Hx) as (q & -> & Hq).
    rewrite descend_tokens_Some. unfold is_object. rewrite Hq, Hobj.
    by eapply IH.
Qed.

Lemma descend_tokens_short r ts : ∀ t c j,
  deref r c = Some j -> ends_on_object j (t :: ts) = true ->
  descend_tokens r (cJSON_GetObjectItem r c t) ts = W_incomplete.
Proof.
  induction ts as [|t' ts IH]; intros t c j Hj H;
    change (ends_on_object j (t :: ?l)) with
      (match child_found j t with
       | None => false
       | Some x => bool_decide (type x = cJSON_Object) && ends_on_object x l
       end) in H;
    destruct (child_found j t) as [x|] eqn:Hx; try done;
    apply andb_prop in H as [Hobj Hshort];
    destruct (child_found_GetObjectItem _ _ _ _ _ Hj Hx) as (q & -> & Hq);
    rewrite descend_tokens_Some; unfold is_object; rewrite Hq, Hobj.
  - done.
  - by eapply IH.
Qed.

Lemma tp_set_locate_missing r key :
  missing_segment r (CStr.tokens key) = true ->
  ∃ l, tp_set_locate r key = Fail l ∧ error_kind l = KeyNotFound.
Proof.
  intros Hmiss. destruct (CStr.has_dot key) eqn:Hdot.
  - rewrite (tp_set_locate_tokens _ _ Hdot).
    destruct (CStr.tokens key) as [|t ts]; [done|].
    rewrite (descend_tokens_missing r ts t [] r eq_refl Hmiss). by eexists.
  - unfold tp_set_locate. rewrite Hdot. simpl.
    unfold CStr.tokens in Hmiss. rewrite (has_dot_false_split _ Hdot) in Hmiss.
    destruct key as [|c key]; [done|].
    rewrite filter_cons_True in Hmiss by done. simpl in Hmiss.
    destruct (child_found r (String c key)) as [x|] eqn:Hx.
    + by rewrite andb_false_r in Hmiss.
    + rewrite (child_found_None r [] r _ eq_refl Hx). by eexists.
Qed.

Lemma tp_set_locate_short r key :
  CStr.has_dot key = true -> ends_on_object r (CStr.tokens key) = true ->
  ∃ l, tp_set_locate r key = Fail l ∧ error_kind l = KeyNotFound.
Proof.
  intros Hdot Hshort. rewrite (tp_set_locate_tokens _ _ Hdot).
  destruct (CStr.tokens key) as [|t ts]; [by eexists|].
  rewrite (descend_tokens_short r ts t [] r eq_refl Hshort). by eexists.
Qed.

(** What tp_get and tp_set do on a key whose traversal finds no item. *)
Lemma no_item_fails (eg : get_env) (es : set_env) (hd : tp_handle) (r : cJSON)
    (key value : string) (w : world) l :
  open_store hd -> root hd = Some r ->
  g_strdup_key eg = true -> s_strdup_key es = true ->
  tp_set_locate r key = Fail l ->
  tp_get eg (Some hd) (Some key) w = (Fail l, Some hd, w) ∧
  tp_set cJSON_Print es (Some hd) (Some key) (Some value) w = (Fail l, Some hd, w).
Proof.
  intros Hopen Hr Hg Hs Hl. pose proof (unlock_open_store _ Hopen) as Hu.
  destruct Hopen as (_ & _ & _ & [fname Hn]). split.
  - unfold tp_get. rewrite Hr, Hg. simpl.
    rewrite tp_get_lookup_by_locate, Hl, unlock_lock, Hu.
    by rewrite release_acquire.
  - destruct (tp_set_unresolved cJSON_Print es hd r fname key value w l Hr Hn Hs Hl)
      as [-> _]. by rewrite Hu.
Qed.

(** X8. A key of which some segment names no child, the segments before
    it leading through object items: tp_get returns NULL and tp_set returns
    -1, both through a KeyNotFound exit, and the store, the files and the
    resources are as before the call. *)
Theorem missing_segment_fails (eg : get_env) (es : set_env) (hd : tp_handle)
    (r : cJSON) (key value : string) (w : world) :
  open_store hd -> root hd = Some r ->
  g_strdup_key eg = true -> s_strdup_key es = true ->
  missing_segment r (CStr.tokens key) = true ->
  ∃ l, error_kind l = KeyNotFound ∧
       tp_get eg (Some hd) (Some key) w = (Fail l, Some hd, w) ∧
       tp_set cJSON_Print es (Some hd) (Some key) (Some value) w
         = (Fail l, Some hd, w).
Proof.
  intros Hopen Hr Hg Hs Hmiss.
  destruct (tp_set_locate_missing _ _ Hmiss) as (l & Hl & Hkind).
  exists l. split; [done|]. by apply no_item_fails with (r := r).
Qed.

(** X9. A key with a dot that stops short of a leaf, every segment naming
    an object item, or that has no segment at all (only dots): tp_get
    returns NULL and tp_set returns -1 through a KeyNotFound exit, with
    store, files and resources as before the call. *)
Theorem short_key_fails (eg : get_env) (es : set_env) (hd : tp_handle)
    (r : cJSON) (key value : string) (w : world) :
  open_store hd -> root hd = Some r ->
  g_strdup_key eg = true -> s_strdup_key es = true ->
  CStr.has_dot key = true -> ends_on_object r (CStr.tokens key) = true ->
  ∃ l, error_kind l = KeyNotFound ∧
       tp_get eg (Some hd) (Some key) w = (Fail l, Some hd, w) ∧
       tp_set cJSON_Print es (Some hd) (Some key) (Some value) w
         = (Fail l, Some hd, w).
Proof.
  intros Hopen Hr Hg Hs Hdot Hshort.
  destruct (tp_set_locate_short _ _ Hdot Hshort) as (l & Hl & Hkind).
  exists l. split; [done|]. by apply no_item_fails with (r := r).
Qed.

End Keys.

(** ** Letter case, and a store closed and opened again *)

Section LowerCase.

Import CStr.

Lemma tolower_dot c : Ascii.eqb (tolower c) "." = Ascii.eqb c ".".
Proof. destruct c as [[] [] [] [] [] [] [] []]; reflexivity. Qed.

Lemma tolower_idem c : tolower (tolower c) = tolower c.
Proof. destruct c as [[] [] [] [] [] [] [] []]; reflexivity. Qed.

Lemma lower_idem s : lower (lower s) = lower s.
Proof. induction s as [|c s IH]; simpl; [done|]. by rewrite tolower_idem, IH. Qed.

Lemma has_dot_lower s : has_dot (lower s) = has_dot s.
Proof. induction s as [|c s IH]; simpl; [done|]. by rewrite tolower_dot, IH. Qed.

Lemma split_dots_lower s : split_dots (lower s) = List.map lower (split_dots s).
Proof.
  induction s as [|c s IH]; simpl; [done|]. rewrite tolower_dot, IH.
  destruct (Ascii.eqb c "."); [done|]. by destruct (split_dots s).
Qed.

Lemma tokens_lower s : tokens (lower s) = List.map lower (tokens s).
Proof.
  unfold tokens. rewrite split_dots_lower.
  induction (split_dots s) as [|t ts IH]; [done|]. simpl.
  destruct t as [|c t].
  - rewrite !filter_cons_False by (simpl; tauto). apply IH.
  - rewrite !filter_cons_True by done. simpl. by rewrite IH.
Qed.

Lemma name_matches_lower k j : name_matches (lower k) j = name_matches k j.
Proof. unfold name_matches. by rewrite lower_idem. Qed.

Lemma find_index_ext {A} (f g : A -> bool) l :
  (∀ x, f x = g x) -> find_index f l = find_index g l.
Proof. intros H. induction l as [|x l IH]; simpl; [done|]. by rewrite H, IH. Qed.

Lemma GetObjectItem_lower r c k :
  cJSON_GetObjectItem r c (lower k) = cJSON_GetObjectItem r c k.
Proof.
  unfold cJSON_GetObjectItem. destruct (deref r c) as [o|]; simpl; [|done].
  by rewrite (find_index_ext _ _ _ (name_matches_lower k)).
Qed.

Lemma descend_tokens_lower r toks : ∀ cur,
  descend_tokens r cur (List.map lower toks) = descend_tokens r cur toks.
Proof.
  induction toks as [|t toks IH]; intros [c|]; simpl; try done.
  destruct (is_object r c); [|done]. by rewrite GetObjectItem_lower, IH.
Qed.

(** The traversal reads the key up to the case of its letters. *)
Lemma tp_set_locate_lower r key : tp_set_locate r (lower key) = tp_set_locate r key.
Proof.
  destruct (has_dot key) eqn:Hdot.
  - rewrite !tp_set_locate_tokens by (by rewrite ?has_dot_lower).
    rewrite tokens_lower. destruct (tokens key) as [|t ts]; [done|]. simpl.
    by rewrite GetObjectItem_lower, descend_tokens_lower.
  - unfold tp_set_locate. rewrite has_dot_lower, Hdot. simpl.
    by rewrite GetObjectItem_lower.
Qed.

End LowerCase.

Section LetterCase.

Variable cJSON_Print : cJSON -> string.

Import CStr.

(** On an open store the outcome of tp_get and tp_set depends on the key
    only through the item the traversal finds. *)
Lemma same_item_same_outcome (eg : get_env) (es : set_env) (hd : tp_handle)
    (r : cJSON) (key key' : string) (value : option string) (w : world) :
  open_store hd -> root hd = Some r ->
  has_dot key = has_dot key' -> tp_set_locate r key = tp_set_locate r key' ->
  tp_get eg (Some hd) (Some key) w = tp_get eg (Some hd) (Some key') w ∧
  tp_set cJSON_Print es (Some hd) (Some key) value w
    = tp_set cJSON_Print es (Some hd) (Some key') value w.
Proof.
  intros ([f Hf] & _ & _ & [fname Hn]) Hr Hdot Hloc.
  destruct w as [files lv]. split.
  - unfold tp_get. rewrite Hr. destruct (g_strdup_key eg); simpl; [|done].
    rewrite !tp_get_lookup_by_locate, Hloc, Hdot.
    destruct (tp_set_locate_total r key') as [Hfuel Hcrash].
    destruct (tp_set_locate r key') as [q|l| |]; try done; [|by norm_live].
    destruct (valuestring_at r q); [|by norm_live].
    destruct (g_strdup_result eg); by norm_live.
  - unfold tp_set. destruct value as [value|]; [|done].
    rewrite Hn, Hr. destruct (s_strdup_key es); simpl; [|done].
    rewrite Hloc.
    destruct (tp_set_locate_total r key') as [Hfuel Hcrash].
    destruct (tp_set_locate r key') as [q|l| |]; try done; [|by norm_live].
    destruct (s_strdup_value es); simpl; [|by norm_live].
    destruct (s_fopen_tmp es); simpl; [|by norm_live].
    destruct (s_print es); simpl; [|by norm_live].
    destruct (Nat.min _ _ =? _)%nat; simpl; [|by norm_live].
    destruct (s_rename es); simpl; [|by norm_live].
    rewrite Hf. destruct (s_reopen es); simpl; by norm_live.
Qed.

(** X10. Keys are read without regard to the case of their letters: two
    keys that differ only in letter case get the same result from tp_get
    and from tp_set, with the same store, files and resources after. *)
Theorem keys_ignore_case (eg : get_env) (es : set_env) (hd : tp_handle)
    (key key' : string) (value : option string) (w : world) :
  open_store hd -> lower key = lower key' ->
  tp_get eg (Some hd) (Some key) w = tp_get eg (Some hd) (Some key') w ∧
  tp_set cJSON_Print es (Some hd) (Some key) value w
    = tp_set cJSON_Print es (Some hd) (Some key') value w.
Proof.
  intros Hopen Hlow. pose proof Hopen as (_ & _ & [r Hr] & _).
  apply same_item_same_outcome with (r := r); try done.
  - by rewrite <- (has_dot_lower key), Hlow, has_dot_lower.
  - by rewrite <- (tp_set_locate_lower r key), Hlow, tp_set_locate_lower.
Qed.

End LetterCase.

Section Reopen.

Variable cJSON_Parse : string -> option cJSON.
Variable cJSON_Print : cJSON -> string.

(** X11. What tp_set wrote is what a later tp_open reads, when the
    flush at fclose was complete. After a tp_set that returned 0 and
    whose flush wrote the whole serialization, close the store and open
    its path again: when the parser reads the printed tree back, and the
    steps of tp_open succeed, the new store holds that tree and tp_get on
    the key returns the value that was set. *)
Theorem tp_set_survives_reopen (es : set_env) (eo : open_env) (eg : get_env)
    (hd : tp_handle) (key value : string) (w : world) hd' w' r' fname :
  tp_set cJSON_Print es (Some hd) (Some key) (Some value) w = (Ret tt, Some hd', w') ->
  root hd' = Some r' -> filename hd' = Some fname ->
  (String.length (cJSON_Print r') ≤ s_flush es)%nat ->
  cJSON_Parse (cJSON_Print r') = Some r' ->
  open_steps_ok eo (String.length (cJSON_Print r')) ->
  g_strdup_key eg = true -> g_strdup_result eg = true ->
  ∃ h2 w2,
    tp_open cJSON_Parse eo fname (tp_close (Some hd') w') = (Ret h2, w2) ∧
    root h2 = Some r' ∧
    (tp_get eg (Some h2) (Some key) w2).1.1 = Ret value.
Proof.
  intros Hset Hr' Hn' Hflush Hparse (Hc & Hm & Hs & Hf & Hst & Hma & Hrd) Hk Hres.
  destruct (tp_set_success _ _ _ _ _ _ _ _ Hset)
    as (r & q & fname0 & f & Hr & Hn & Hfp & Hloc & Hfit & [= ->] & Hfs).
  simpl in Hr', Hn'. injection Hr' as <-. injection Hn' as <-.
  assert (fs (tp_close
                (Some (Handle (Some fname0) Unlocked
                         (Some (set_valuestring r q (Some value))) (Some fname0))) w')
            !! fname0 = Some (cJSON_Print (set_valuestring r q (Some value)))) as Hfile.
  { simpl. rewrite Hfs, lookup_insert_eq. by rewrite (flushed_full _ _ Hfit Hflush). }
  unfold tp_open. rewrite Hfile, Hc, Hm, Hs, Hf, Hst, Hma. simpl.
  rewrite Nat.min_r by done. rewrite Nat.eqb_refl, Hparse. simpl.
  eexists _, _. split; [done|]. split; [done|].
  unfold tp_get. simpl. rewrite Hk. simpl.
  by rewrite (tp_get_lookup_after_set _ _ _ _ Hloc), Hres.
Qed.

End Reopen.

(** ** The life of a store: open, use, close *)

Section Lifecycle.

Variable cJSON_Parse : string -> option cJSON.
Variable cJSON_Print : cJSON -> string.

(** The handle tp_open returns and the world it leaves. *)
Lemma tp_open_handle (e : open_env) (file : string) (w : world) h w' :
  tp_open cJSON_Parse e file w = (Ret h, w') ->
  fp h = Some file ∧ filename h = Some file ∧ lock h = Unlocked ∧
  is_Some (root h) ∧
  w' = World (fs w)
         (R_cJSON :: R_FILE file :: R_string file :: R_mutex :: R_handle :: live w).
Proof.
  intros H. destruct (tp_open_outcomes cJSON_Parse e file w) as (_ & Hret & _).
  destruct (Hret _ _ H) as [(_ & Hl & Hr & _) Hw]. clear Hret.
  revert H. unfold tp_open. repeat case_match; try done.
  intros [= <- _]. by split_and!.
Qed.

(** X13. tp_close undoes tp_open: closing a store that was just opened
    releases the file handle, the tree, the path copy, the mutex and the
    handle, and the world is exactly as before the open; closing NULL does
    nothing. *)
Theorem tp_close_undoes_tp_open (e : open_env) (file : string) (w : world) h w' :
  tp_open cJSON_Parse e file w = (Ret h, w') ->
  tp_close (Some h) w' = w ∧ tp_close None w' = w'.
Proof. intros H. split; [|done]. by eapply tp_open_then_close. Qed.

(** X14. A store that is opened, used for one tp_set and closed leaves
    nothing behind, whatever the outcome of the tp_set, the failed reopen
    included: the resources still acquired after tp_close are those from
    before tp_open. *)
Theorem open_set_close_leaves_nothing (eo : open_env) (es : set_env)
    (file : string) (key value : option string) (w : world) h w1 out h2 w2 :
  tp_open cJSON_Parse eo file w = (Ret h, w1) ->
  tp_set cJSON_Print es (Some h) key value w1 = (out, h2, w2) ->
  live (tp_close h2 w2) = live w.
Proof.
  intros Hopen Hset.
  destruct (tp_open_handle _ _ _ _ _ Hopen) as (Hf & Hn & Hl & Hr & ->).
  assert (open_store h) as Hstore by (unfold open_store; rewrite Hf, Hn; eauto).
  destruct (tp_set_effects _ _ _ _ _ _ _ _ _ Hstore Hset)
    as (f & fname & hd' & Hf' & Hn' & -> & Hn2 & [r2 Hr2] & _ & Hout).
  assert (f = file) as -> by congruence. assert (fname = file) as -> by congruence.
  destruct w2 as [files2 lv2]. unfold tp_close. rewrite Hr2, Hn2. simpl in *.
  destruct out as [[]|l| |]; try done.
  - destruct Hout as [-> ->]. by norm_live.
  - destruct l; destruct Hout as [-> ->]; by norm_live.
Qed.

(** X15. Invalid arguments are turned away at the door: with a NULL
    handle, key or value, or a handle without tree or path, tp_get and
    tp_set fail through an InvalidArgument exit before the lock is taken,
    and handle, files and resources are untouched. *)
Theorem invalid_arguments_rejected (eg : get_env) (es : set_env)
    (h : option tp_handle) (key value : option string) (w : world) :
  (h = None ∨ key = None ∨ h ≫= root = None ->
   ∃ l, tp_get eg h key w = (Fail l, h, w) ∧ error_kind l = InvalidArgument) ∧
  (h = None ∨ key = None ∨ value = None ∨ h ≫= root = None ∨ h ≫= filename = None ->
   ∃ l, tp_set cJSON_Print es h key value w = (Fail l, h, w) ∧
        error_kind l = InvalidArgument).
Proof.
  split.
  - intros H. unfold tp_get.
    destruct h as [hd|], key as [key|]; try by eexists.
    destruct H as [H|[H|H]]; try done. simpl in H. rewrite H. by eexists.
  - intros H. unfold tp_set.
    destruct h as [hd|], key as [key|], value as [value|]; try by eexists.
    destruct H as [H|[H|[H|[H|H]]]]; try done; simpl in H; rewrite H.
    + destruct (filename hd); by eexists.
    + by eexists.
Qed.

End Lifecycle.

(** ** These theorems on the example stores *)

Section MoreInstances.

Import Example.

Lemma tp_set_touches_one_item_witness :
  ∃ r1, root (handle_after (set_on set_no_tmp nested "system.audio.volume" "75"))
          = Some r1 ∧
        skeleton r1 = skeleton (tree nested) ∧
        filename (handle_after (set_on set_no_tmp nested "system.audio.volume" "75"))
          = filename (store nested) ∧
        ∀ p, tp_set_locate (tree nested) "system.audio.volume" ≠ Ret p ->
             valuestring_at r1 p = valuestring_at (tree nested) p.
Proof.
  apply (tp_set_touches_one_item Json.print set_no_tmp (store nested) (tree nested)
           "system.audio.volume" (Some "75") (world_of nested)
           (set_on set_no_tmp nested "system.audio.volume" "75").1.1
           (handle_after (set_on set_no_tmp nested "system.audio.volume" "75"))
           (set_on set_no_tmp nested "system.audio.volume" "75").2).
  - vm_compute. reflexivity.
  - vm_compute. reflexivity.
Defined.

Lemma tp_set_keeps_other_keys_witness :
  (tp_get get_ok (Some (handle_after (set_on set_ok nested "system.audio.volume" "75")))
     (Some "system.audio.mute") (set_on set_ok nested "system.audio.volume" "75").2).1.1
  = (tp_get get_ok (Some (store nested)) (Some "system.audio.mute")
       (world_of nested)).1.1.
Proof.
  apply (tp_set_keeps_other_keys Json.print set_ok get_ok (store nested) (tree nested)
           "system.audio.volume" "75" "system.audio.mute" (world_of nested)).
  - vm_compute. reflexivity.
  - vm_compute. reflexivity.
  - vm_compute. discriminate.
Defined.


Lemma tp_get_reads_only_witness :
  Some (store nested) = Some (store nested) ∧
  fs (tp_get get_ok (Some (store nested)) (Some "system.display.brightness")
        (world_of nested)).2 = fs (world_of nested) ∧
  live (tp_get get_ok (Some (store nested)) (Some "system.display.brightness")
          (world_of nested)).2 = R_string "75" :: live (world_of nested).
Proof.
  apply (tp_get_reads_only get_ok (store nested) (Some "system.display.brightness")
           (world_of nested) (Ret "75") (Some (store nested))).
  - exact store_nested_open.
  - vm_compute. reflexivity.
Defined.

Lemma tp_set_resources_witness :
  ∃ f fname, fp (store nested) = Some f ∧ filename (store nested) = Some fname ∧
    live (set_on set_no_reopen nested "system.audio.volume" "75").2
      = remove_first (R_FILE f) (live (world_of nested)) ∧
    fp <$> (set_on set_no_reopen nested "system.audio.volume" "75").1.2 = Some None.
Proof.
  apply (tp_set_resources Json.print set_no_reopen (store nested)
           (Some "system.audio.volume") (Some "75") (world_of nested)
           (Fail Log_reopen_failed)).
  - exact store_nested_open.
  - vm_compute. reflexivity.
Defined.

Lemma tp_set_keeps_store_open_witness :
  ∃ hd', (set_on set_no_tmp nested "system.audio.volume" "75").1.2 = Some hd' ∧
         (@Fail unit Log_tmp_open_failed ≠ Fail Log_reopen_failed -> open_store hd') ∧
         (@Fail unit Log_tmp_open_failed = Fail Log_reopen_failed -> fp hd' = None).
Proof.
  apply (tp_set_keeps_store_open Json.print set_no_tmp (store nested)
           (Some "system.audio.volume") (Some "75") (world_of nested)
           (Fail Log_tmp_open_failed) _
           (set_on set_no_tmp nested "system.audio.volume" "75").2).
  - exact store_nested_open.
  - vm_compute. reflexivity.
Defined.


Lemma tp_set_long_path_truncates_witness :
  temp_file long_path = long_path ∧
  (tp_set Json.print set_no_print (Some long_store) (Some "a") (Some "2")
     long_world).1.1 = Fail Log_serialize_failed ∧
  fs (tp_set Json.print set_no_print (Some long_store) (Some "a") (Some "2")
        long_world).2 !! long_path = Some EmptyString.
Proof.
  apply (tp_set_long_path_truncates Json.print set_no_print long_store
           (flat_tree (Some "1")) long_path "a" "2" [0%nat] long_world);
    vm_compute; reflexivity.
Defined.

Lemma missing_segment_fails_witness :
  ∃ l, error_kind l = KeyNotFound ∧
       tp_get get_ok (Some (store nested)) (Some "system.invalid.key") (world_of nested)
         = (Fail l, Some (store nested), world_of nested) ∧
       tp_set Json.print set_ok (Some (store nested)) (Some "system.invalid.key")
           (Some "100") (world_of nested)
         = (Fail l, Some (store nested), world_of nested).
Proof.
  apply (missing_segment_fails Json.print get_ok set_ok (store nested) (tree nested)).
  - exact store_nested_open.
  - vm_compute. reflexivity.
  - reflexivity.
  - reflexivity.
  - vm_compute. reflexivity.
Defined.

Lemma short_key_fails_witness :
  ∃ l, error_kind l = KeyNotFound ∧
       tp_get get_ok (Some (store nested)) (Some "system.audio") (world_of nested)
         = (Fail l, Some (store nested), world_of nested) ∧
       tp_set Json.print set_ok (Some (store nested)) (Some "system.audio")
           (Some "100") (world_of nested)
         = (Fail l, Some (store nested), world_of nested).
Proof.
  apply (short_key_fails Json.print get_ok set_ok (store nested) (tree nested)).
  - exact store_nested_open.
  - vm_compute. reflexivity.
  - reflexivity.
  - reflexivity.
  - vm_compute. reflexivity.
  - vm_compute. reflexivity.
Defined.

Lemma keys_ignore_case_witness :
  tp_get get_ok (Some (store nested)) (Some "System.AUDIO.Volume") (world_of nested)
    = tp_get get_ok (Some (store nested)) (Some "system.audio.volume")
        (world_of nested) ∧
  tp_set Json.print set_ok (Some (store nested)) (Some "System.AUDIO.Volume")
      (Some "75") (world_of nested)
    = tp_set Json.print set_ok (Some (store nested)) (Some "system.audio.volume")
        (Some "75") (world_of nested).
Proof.
  apply (keys_ignore_case Json.print get_ok set_ok (store nested)).
  - exact store_nested_open.
  - vm_compute. reflexivity.
Defined.

Lemma tp_set_survives_reopen_witness :
  ∃ h2 w2,
    tp_open Json.parse open_ok path
      (tp_close (Some (handle_after (set_on set_ok nested "system.audio.volume" "75")))
         (set_on set_ok nested "system.audio.volume" "75").2) = (Ret h2, w2) ∧
    root h2 = Some (tree (Json.print
                            (set_valuestring (tree nested) [0; 0; 0]%nat (Some "75")))) ∧
    (tp_get get_ok (Some h2) (Some "system.audio.volume") w2).1.1 = Ret "75".
Proof.
  apply (tp_set_survives_reopen Json.parse Json.print set_ok open_ok get_ok
           (store nested) "system.audio.volume" "75" (world_of nested)).
  - vm_compute. reflexivity.
  - vm_compute. reflexivity.
  - vm_compute. reflexivity.
  - vm_compute. lia.
  - vm_compute. reflexivity.
  - vm_compute. split_and!; try reflexivity. lia.
  - reflexivity.
  - reflexivity.
Defined.

Lemma tp_close_undoes_tp_open_witness :
  tp_close (Some (store nested)) (world_of nested) = disk nested ∧
  tp_close None (world_of nested) = world_of nested.
Proof.
  apply (tp_close_undoes_tp_open Json.parse open_ok path (disk nested)).
  vm_compute. reflexivity.
Defined.

Lemma open_set_close_leaves_nothing_witness :
  live (tp_close (set_on set_no_reopen nested "system.audio.volume" "75").1.2
          (set_on set_no_reopen nested "system.audio.volume" "75").2)
  = live (disk nested).
Proof.
  apply (open_set_close_leaves_nothing Json.parse Json.print open_ok set_no_reopen
           path (Some "system.audio.volume") (Some "75") (disk nested)
           (store nested) (world_of nested)
           (set_on set_no_reopen nested "system.audio.volume" "75").1.1).
  - vm_compute. reflexivity.
  - vm_compute. reflexivity.
Defined.

Lemma invalid_arguments_rejected_witness :
  (∃ l, tp_get get_ok None (Some "system.audio.volume") (world_of nested)
          = (Fail l, None, world_of nested) ∧ error_kind l = InvalidArgument) ∧
  (∃ l, tp_set Json.print set_ok (Some (store nested)) None (Some "100")
            (world_of nested)
          = (Fail l, Some (store nested), world_of nested) ∧
        error_kind l = InvalidArgument).
Proof.
  split.
  - apply (proj1 (invalid_arguments_rejected Json.print get_ok set_ok None
                    (Some "system.audio.volume") None (world_of nested))).
    by left.
  - apply (proj2 (invalid_arguments_rejected Json.print get_ok set_ok
                    (Some (store nested)) None (Some "100") (world_of nested))).
    right. by left.
Defined.

End MoreInstances.
